(** * deebee: a versioned file store with checksum verification

    A shallow embedding of the Go packages [checksum], [store] and [deebee]
    and the properties of their readers, version selection, option
    handling and metrics.

    Conventions of the embedding:
    - [[]byte] is [list byte], Go strings are [string];
    - [uint64] and [int] values are [Z] with the wrap-around written out;
    - [(T, error)] results are sums [result T];
    - a [*Store] or [*reader] receiver that is mutated is passed in and
      returned (explicit state passing);
    - [time.Time] is the instant it denotes, as a number of nanoseconds. *)

From Stdlib Require Import ZArith List String Ascii Lia Bool DecimalString DecimalPos.
From Stdlib.Strings Require Import Byte.
From stdpp Require Import base option gmap strings list.

Local Open Scope string_scope.
Local Open Scope list_scope.
Local Open Scope Z_scope.

(** ** Results and bytes *)

Inductive result (E A : Type) : Type :=
| Ok (a : A)
| Err (e : E).
Arguments Ok {E A} a.
Arguments Err {E A} e.

Definition bytes := list byte.

Definition Z_of_byte (b : byte) : Z := Z.of_N (Byte.to_N b).

(** Go's conversion [byte(x)] of an unsigned integer: the low eight bits. *)
Definition byte_of_Z (z : Z) : byte :=
  match Byte.of_N (Z.to_N (z mod 256)) with
  | Some b => b
  | None => x00
  end.

Definition bytes_of_string (s : string) : bytes := list_byte_of_string s.

(** [bytes.Equal] *)
Fixpoint bytes_Equal (a b : bytes) : bool :=
  match a, b with
  | [], [] => true
  | x :: a', y :: b' => Byte.eqb x y && bytes_Equal a' b'
  | _, _ => false
  end.

(** [fmt.Sprintf("%x", b)]: two lowercase hexadecimal digits per byte. *)
Definition hex_digit (n : Z) : ascii :=
  if n <? 10 then ascii_of_N (Z.to_N (48 + n))
  else ascii_of_N (Z.to_N (87 + n)).

Fixpoint hex (b : bytes) : string :=
  match b with
  | [] => EmptyString
  | x :: r =>
      String (hex_digit (Z_of_byte x / 16))
        (String (hex_digit (Z_of_byte x mod 16)) (hex r))
  end.

(** ** 64-bit arithmetic *)

Definition wrap_u64 (z : Z) : Z := z mod 2 ^ 64.

(** Go's [int] and [int64] (and [time.Duration]) on a 64-bit platform:
    two's complement wrap-around. *)
Definition min_int64 : Z := - 2 ^ 63.
Definition max_int64 : Z := 2 ^ 63 - 1.
Definition wrap_i64 (z : Z) : Z := (z + 2 ^ 63) mod 2 ^ 64 - 2 ^ 63.
Definition add_i64 (a b : Z) : Z := wrap_i64 (a + b).

(** [bits.Mul64 x y]: the high and low words of the 128-bit product. *)
Definition Mul64 (x y : Z) : Z * Z :=
  ((x * y) / 2 ^ 64, (x * y) mod 2 ^ 64).

(** ** Package checksum *)

Module checksum.

(** The [hash.Hash] interface as the package uses it: [Write] feeds
    bytes, [Sum(b)] appends the current digest to [b] and leaves the
    state as it is. *)
Record Hash : Type := mkHash {
  hstate : Type;
  hnew : hstate;
  hWrite : hstate -> bytes -> hstate;
  hSum : hstate -> bytes -> bytes
}.

(** *** hash/fnv, 128-bit FNV-1a

    The state is the array [[2]uint64], high word first. *)
Definition offset128Lower : Z := 0x62b821756295c58d.
Definition offset128Higher : Z := 0x6c62272e07bb0142.
Definition prime128Lower : Z := 0x13b.
Definition prime128Shift : Z := 24.

Definition sum128a : Type := (Z * Z)%type.

Definition New128a : sum128a := (offset128Higher, offset128Lower).

(** One iteration of the loop of the [Write] method of [sum128a]. *)
Definition sum128a_step (s : sum128a) (c : byte) : sum128a :=
  let s1x := Z.lxor (snd s) (Z_of_byte c) in
  let '(s0, s1) := Mul64 prime128Lower s1x in
  let s0' :=
    wrap_u64 (s0 + wrap_u64 (wrap_u64 (Z.shiftl s1x prime128Shift)
                             + wrap_u64 (prime128Lower * fst s))) in
  (s0', s1).

Definition sum128a_Write (s : sum128a) (data : bytes) : sum128a :=
  fold_left sum128a_step data s.

Definition be_bytes64 (w : Z) : bytes :=
  map (fun k => byte_of_Z (Z.shiftr w k)) [56; 48; 40; 32; 24; 16; 8; 0].

Definition sum128a_Sum (s : sum128a) (b : bytes) : bytes :=
  b ++ be_bytes64 (fst s) ++ be_bytes64 (snd s).

Definition fnv128a : Hash :=
  {| hstate := sum128a; hnew := New128a;
     hWrite := sum128a_Write; hSum := sum128a_Sum |}.

(** What every [hash.Hash] promises of [Write]: writing nothing changes
    nothing, and two writes are one write of the concatenation. *)
Definition streaming (h : Hash) : Prop :=
  (forall s, hWrite h s [] = s)
  /\ (forall s a b, hWrite h (hWrite h s a) b = hWrite h s (a ++ b)).

(** [hashSum] embeds a [hash.Hash]; [Sum] is the accumulator interface
    of the package: [Write] and [Marshal]. *)
Record hashSum (h : Hash) : Type := mkHashSum { inner : hstate h }.
Arguments mkHashSum {h} inner.
Arguments inner {h} _.

Definition hashSum_Write {h} (f : hashSum h) (p : bytes) : hashSum h :=
  mkHashSum (hWrite h (inner f) p).

(** [func (f *hashSum) Marshal() []byte { return f.Hash.Sum([]byte{}) }] *)
Definition Marshal {h} (f : hashSum h) : bytes := hSum h (inner f) [].

(** [algorithm]: a name and a factory of fresh sums. *)
Record algorithm : Type := mkAlgorithm {
  alg_hash : Hash;
  name : string
}.

Definition NewSum (a : algorithm) : hashSum (alg_hash a) :=
  mkHashSum (hnew (alg_hash a)).

Definition FNV128a : algorithm :=
  {| alg_hash := fnv128a; name := "fnv128a" |}.

(** *** hash/fnv, the other sums of the family

    [sum32] and [sum64] multiply and then mix the byte in (FNV-1), [sum32a]
    and [sum64a] mix it in and then multiply (FNV-1a); [sum128] is the
    FNV-1 order on two words. *)
Definition wrap_u32 (z : Z) : Z := z mod 2 ^ 32.

Definition offset32 : Z := 2166136261.
Definition offset64 : Z := 14695981039346656037.
Definition prime32 : Z := 16777619.
Definition prime64 : Z := 1099511628211.

Definition sum32_step (hash : Z) (c : byte) : Z :=
  Z.lxor (wrap_u32 (hash * prime32)) (Z_of_byte c).

Definition sum32a_step (hash : Z) (c : byte) : Z :=
  wrap_u32 (Z.lxor hash (Z_of_byte c) * prime32).

Definition sum64_step (hash : Z) (c : byte) : Z :=
  Z.lxor (wrap_u64 (hash * prime64)) (Z_of_byte c).

Definition sum64a_step (hash : Z) (c : byte) : Z :=
  wrap_u64 (Z.lxor hash (Z_of_byte c) * prime64).

Definition sum128_step (s : sum128a) (c : byte) : sum128a :=
  let '(s0, s1) := Mul64 prime128Lower (snd s) in
  let s0' :=
    wrap_u64 (s0 + wrap_u64 (wrap_u64 (Z.shiftl (snd s) prime128Shift)
                             + wrap_u64 (prime128Lower * fst s))) in
  (s0', Z.lxor s1 (Z_of_byte c)).

Definition be_bytes32 (w : Z) : bytes :=
  map (fun k => byte_of_Z (Z.shiftr w k)) [24; 16; 8; 0].

Definition fnv32 : Hash :=
  {| hstate := Z; hnew := offset32;
     hWrite := fun s data => fold_left sum32_step data s; hSum := fun s b => b ++ be_bytes32 s |}.

Definition fnv32a : Hash :=
  {| hstate := Z; hnew := offset32;
     hWrite := fun s data => fold_left sum32a_step data s; hSum := fun s b => b ++ be_bytes32 s |}.

Definition fnv64 : Hash :=
  {| hstate := Z; hnew := offset64;
     hWrite := fun s data => fold_left sum64_step data s; hSum := fun s b => b ++ be_bytes64 s |}.

Definition fnv64a : Hash :=
  {| hstate := Z; hnew := offset64;
     hWrite := fun s data => fold_left sum64a_step data s; hSum := fun s b => b ++ be_bytes64 s |}.

Definition fnv128 : Hash :=
  {| hstate := sum128a; hnew := New128a;
     hWrite := fun s data => fold_left sum128_step data s; hSum := sum128a_Sum |}.

Definition FNV32 : algorithm := {| alg_hash := fnv32; name := "fnv32" |}.
Definition FNV32a : algorithm := {| alg_hash := fnv32a; name := "fnv32a" |}.
Definition FNV64 : algorithm := {| alg_hash := fnv64; name := "fnv64" |}.
Definition FNV64a : algorithm := {| alg_hash := fnv64a; name := "fnv64a" |}.
Definition FNV128 : algorithm := {| alg_hash := fnv128; name := "fnv128" |}.

(** *** hash/crc32 and hash/crc64

    The tables of [crc32.IEEETable] and [crc64.MakeTable(crc64.ISO)], built
    bit by bit as [simpleMakeTable] and [makeTable] do, and the update loop
    over the bytes; the state of a digest is its [crc] field. *)
Definition crc32_IEEE : Z := 0xedb88320.
Definition crc64_ISO : Z := 0xD800000000000000.

Definition tableEntry (poly : Z) (i : Z) : Z :=
  Nat.iter 8 (fun crc => if Z.testbit crc 0
                         then Z.lxor (Z.shiftr crc 1) poly
                         else Z.shiftr crc 1) i.

Definition MakeTable (poly : Z) : list Z :=
  map (fun i => tableEntry poly (Z.of_nat i)) (seq 0 256).

Definition crc_step (tab : list Z) (crc : Z) (v : byte) : Z :=
  Z.lxor (nth (Z.to_nat (Z.lxor (crc mod 256) (Z_of_byte v))) tab 0)
         (Z.shiftr crc 8).

(** [update(crc, tab, p)]: the state is complemented before and after the
    loop; [ones] is the all-ones word of the width. *)
Definition crc_update (ones : Z) (tab : list Z) (crc : Z) (p : bytes) : Z :=
  Z.lxor (fold_left (crc_step tab) p (Z.lxor crc ones)) ones.

Definition crc32 : Hash :=
  {| hstate := Z; hnew := 0;
     hWrite := crc_update 0xffffffff (MakeTable crc32_IEEE);
     hSum := fun s b => b ++ be_bytes32 s |}.

Definition crc64 : Hash :=
  {| hstate := Z; hnew := 0;
     hWrite := crc_update 0xffffffffffffffff (MakeTable crc64_ISO);
     hSum := fun s b => b ++ be_bytes64 s |}.

Definition CRC32 : algorithm := {| alg_hash := crc32; name := "crc32" |}.
Definition CRC64 : algorithm := {| alg_hash := crc64; name := "crc64" |}.

(** The CRC algorithms of the package, each with the size of its digest. *)
Definition crcFamily : list (algorithm * nat) :=
  [(CRC32, 4%nat); (CRC64, 8%nat)].

(** The FNV algorithms of the package, each with the size of its digest in
    bytes. *)
Definition fnvFamily : list (algorithm * nat) :=
  [(FNV32, 4%nat); (FNV32a, 4%nat); (FNV64, 8%nat); (FNV64a, 8%nat);
   (FNV128, 16%nat); (FNV128a, 16%nat)].

(** *** The registry of names

    [AlgorithmName] is an array of bytes whose declaration, and with it
    its length, is not part of the sources: the length is the argument
    [N].  [algorithmName] starts from the zero array and copies as many
    bytes of the string as fit. *)
Definition algorithmName (N : nat) (s : string) : bytes :=
  let copied := take N (bytes_of_string s) in
  copied ++ replicate (N - length copied) x00.

(** The package variables that hold the built-in algorithms. *)
Inductive builtin : Type :=
| varCRC64 | varCRC32 | varSHA512 | varMD5 | varFNV32 | varFNV32a
| varFNV64 | varFNV64a | varFNV128 | varFNV128a.

(** The string each variable passes to [algorithmName]. *)
Definition builtinName (a : builtin) : string :=
  match a with
  | varCRC64 => "crc64" | varCRC32 => "crc32" | varSHA512 => "sha512"
  | varMD5 => "md5" | varFNV32 => "fnv32" | varFNV32a => "fnv32a"
  | varFNV64 => "fnv64" | varFNV64a => "fnv64a" | varFNV128 => "fnv128"
  | varFNV128a => "fnv128a"
  end.

(** [(h *algorithm) Name()] of a built-in algorithm. *)
Definition Name (N : nat) (a : builtin) : bytes := algorithmName N (builtinName a).

#[global] Instance byte_eq_dec : EqDecision byte := Byte.byte_eq_dec.
#[global] Instance byte_countable : Countable byte :=
  inj_countable Byte.to_N Byte.of_N Byte.of_to_N.

(** The entries of the map literal [algorithmsByName], in its order; a key
    that comes twice keeps the later entry. *)
Definition registered : list builtin :=
  [varMD5; varCRC64; varCRC32; varSHA512; varFNV64a; varFNV64; varFNV32;
   varFNV32a; varFNV128; varFNV128a].

Definition algorithmsByName (N : nat) : gmap bytes builtin :=
  foldl (fun m a => <[Name N a := a]> m) ∅ registered.

End checksum.

(** ** The operating system

    The calls of package [os] and [io/ioutil] that the store makes.  The
    files are a map from paths to entries that holds a tree: an entry lies
    under directories only.  A path names its entry as it is written, so
    paths are taken in the form [filepath.Clean] leaves them in ([plain]
    below), and there are no symbolic links.  There are no permissions,
    quotas or device failures: a call fails only for what the entries
    themselves decide. *)

Module os.

Inductive entry : Type :=
| RegularFile (content : bytes)
| Directory.

Abbreviation FS := (gmap string entry).

Inductive errno : Type :=
| ENOENT | ENOTDIR | EISDIR | ENOTEMPTY | ErrClosed.

Definition IsNotExist (e : errno) : bool :=
  match e with ENOENT => true | _ => false end.




(** The directories on the way to a path, from the top: each prefix of the
    path that ends before a slash. *)
Fixpoint parents (seen path : string) : list string :=
  match path with
  | EmptyString => []
  | String c rest =>
      let below := parents (seen ++ String c "") rest in
      if Ascii.eqb c "/" && negb (String.eqb seen "") then seen :: below
      else below
  end.

Definition ancestors (path : string) : list string := parents "" path.

Definition isFile (fs : FS) (path : string) : bool :=
  match fs !! path with
  | Some (RegularFile _) => true
  | _ => false
  end.

(** Some directory on the way to the path is a regular file. *)
Definition underFile (fs : FS) (path : string) : bool :=
  existsb (isFile fs) (ancestors path).

(** [os.Lstat]; the result is [stat.IsDir()].  A path without an entry
    does not exist, unless the way to it leads through a regular file. *)
Definition Lstat (fs : FS) (path : string) : result errno bool :=
  match fs !! path with
  | None => if underFile fs path then Err ENOTDIR else Err ENOENT
  | Some Directory => Ok true
  | Some (RegularFile _) => Ok false
  end.

(** One step of [MkdirAll]: the directory is made unless the path has an
    entry. *)
Definition makeDir (fs : FS) (path : string) : FS :=
  match fs !! path with
  | None => <[path := Directory]> fs
  | Some _ => fs
  end.

(** [os.MkdirAll]: the missing parents are made from the top, then the
    directory itself; nothing is made under a regular file. *)
Definition MkdirAll (fs : FS) (path : string) : FS * option errno :=
  match fs !! path with
  | Some Directory => (fs, None)
  | Some (RegularFile _) => (fs, Some ENOTDIR)
  | None =>
      if underFile fs path then (fs, Some ENOTDIR)
      else (foldl makeDir fs (ancestors path ++ [path]), None)
  end.

(** No entry lies under the path. *)
Definition isEmpty (fs : FS) (path : string) : bool :=
  forallb (fun other => negb (existsb (String.eqb path) (ancestors (fst other))))
          (map_to_list fs).

(** [os.Remove]: a file, or a directory that is empty.  This call and the
    two that follow are made on files of the store directory, which [Open]
    has found or made: for them a path without an entry is a file that
    does not exist. *)
Definition Remove (fs : FS) (path : string) : FS * option errno :=
  match fs !! path with
  | None => (fs, Some ENOENT)
  | Some (RegularFile _) => (delete path fs, None)
  | Some Directory =>
      if isEmpty fs path then (delete path fs, None)
      else (fs, Some ENOTEMPTY)
  end.

Definition ReadFile (fs : FS) (path : string) : result errno bytes :=
  match fs !! path with
  | None => Err ENOENT
  | Some (RegularFile c) => Ok c
  | Some Directory => Err EISDIR
  end.

(** An open [*os.File]: the data of the entry at the time it was opened
    ([None] for a directory), the read offset and whether it was closed. *)
Record File : Type := mkFile {
  Name : string;
  data : option bytes;
  offset : nat;
  closed : bool
}.

Definition Open (fs : FS) (path : string) : result errno File :=
  match fs !! path with
  | None => Err ENOENT
  | Some (RegularFile c) =>
      Ok {| Name := path; data := Some c; offset := 0; closed := false |}
  | Some Directory =>
      Ok {| Name := path; data := None; offset := 0; closed := false |}
  end.

Inductive read_error : Type :=
| EOF
| ReadErrno (e : errno).

(** [(f *File) Read(p)] with [len(p) = n]: the bytes stored into [p], and
    the error.  A read of zero bytes into a non-empty buffer is the end
    of the file; an empty buffer reads nothing and is no error. *)
Definition Read (f : File) (n : nat) : File * bytes * option read_error :=
  if closed f then (f, [], Some (ReadErrno ErrClosed))
  else
    match data f with
    | None => (f, [], Some (ReadErrno EISDIR))
    | Some d =>
        let chunk := take n (drop (offset f) d) in
        match n, chunk with
        | O, _ => (f, [], None)
        | _, [] => (f, [], Some EOF)
        | _, _ =>
            ({| Name := Name f; data := data f;
                offset := (offset f + length chunk)%nat;
                closed := false |},
             chunk, None)
        end
    end.

Definition Close (f : File) : File * option errno :=
  if closed f then (f, Some ErrClosed)
  else ({| Name := Name f; data := data f; offset := offset f;
           closed := true |}, None).

End os.

(** ** Package store *)

Module store.

Definition time_Time : Type := Z.

Record Version : Type := mkVersion {
  Version_Time : time_Time;
  Size : Z
}.

Inductive notFound : Type :=
| NoVersionFound
| TimeNotFound (t : time_Time)
| TimeDoesNotExist (t : time_Time).

(** The errors the package builds, one constructor per message. *)
Inductive error : Type :=
| ErrDirIsEmpty
| ErrApplyingOption (e : error)
| ErrDirDoesNotExist (dir : string)
| ErrMkdirFailed (dir : string) (e : os.errno)
| ErrLstatFailed (dir : string) (e : os.errno)
| ErrNotADirectory (dir : string)
| ErrVersionNotFound (m : notFound)
| ErrRemovingFile (file : string) (e : os.errno)
| ErrReadingVersions (dir : string) (e : error)
| ErrOpeningFile (name : string) (e : os.errno)
| ErrReadingChecksum (e : os.errno)
| ErrInvalidChecksum (file : string)
| ErrClosingFile (e : os.errno)
| ErrIndexOutOfRange
| ErrEOF
| ErrRead (e : os.errno)
| ErrOther (msg : string).

(** [Metrics]: the counters the methods update.  The struct declarations
    are not part of the sources; the fields are those the code names,
    with the types its assignments force ([int], [time.Duration]). *)
Record ReadMetrics : Type := mkReadMetrics {
  ReaderCalls : Z;
  TotalBytesRead : Z;
  TotalTime : Z
}.

Record WriteMetrics : Type := mkWriteMetrics {
  WriterCalls : Z
}.

Record Metrics : Type := mkMetrics {
  Read_ : ReadMetrics;
  Write_ : WriteMetrics
}.

Record Store : Type := mkStore {
  failWhenMissingDir : bool;
  areChecksumsEqual : bytes -> bytes -> bool;
  dir : string;
  lastVersionTime : time_Time;
  metrics : Metrics
}.

Definition Option : Type := Store -> Store * option error.

Definition ALTERED : bytes := bytes_of_string "ALTERED".
Definition ALTERED_LF : bytes := ALTERED ++ [x0a].
Definition ALTERED_CRLF : bytes := ALTERED ++ [x0d; x0a].

(** The comparison [Open] installs. *)
Definition defaultAreChecksumsEqual (expected actual : bytes) : bool :=
  bytes_Equal expected actual
  || bytes_Equal expected ALTERED
  || bytes_Equal expected ALTERED_LF
  || bytes_Equal expected ALTERED_CRLF.

Definition FailWhenMissingDir : Option := fun s =>
  ({| failWhenMissingDir := true;
      areChecksumsEqual := areChecksumsEqual s;
      dir := dir s;
      lastVersionTime := lastVersionTime s;
      metrics := metrics s |}, None).

Definition NoIntegrityCheck : Option := fun s =>
  ({| failWhenMissingDir := failWhenMissingDir s;
      areChecksumsEqual := fun _ _ => true;
      dir := dir s;
      lastVersionTime := lastVersionTime s;
      metrics := metrics s |}, None).

(** The options the package itself offers for [Open], and [nil]. *)
Definition packageOption (o : option Option) : Prop :=
  o = None \/ o = Some FailWhenMissingDir \/ o = Some NoIntegrityCheck.

(** The loop over the options, shared by the constructors: a [nil] option
    is skipped, the first error stops the loop. *)
Fixpoint applyOptions {S : Type} (options : list (option (S -> S * option error)))
    (s : S) : result error S :=
  match options with
  | [] => Ok s
  | None :: rest => applyOptions rest s
  | Some apply :: rest =>
      match apply s with
      | (_, Some err) => Err (ErrApplyingOption err)
      | (s', None) => applyOptions rest s'
      end
  end.

Definition zeroMetrics : Metrics :=
  {| Read_ := {| ReaderCalls := 0; TotalBytesRead := 0; TotalTime := 0 |};
     Write_ := {| WriterCalls := 0 |} |}.

Definition Open (fs : os.FS) (d : string) (options : list (option Option))
  : os.FS * result error Store :=
  if String.eqb d "" then (fs, Err ErrDirIsEmpty)
  else
    let s := {| failWhenMissingDir := false;
                areChecksumsEqual := defaultAreChecksumsEqual;
                dir := d;
                lastVersionTime := 0;
                metrics := zeroMetrics |} in
    match applyOptions options s with
    | Err e => (fs, Err e)
    | Ok s =>
        match os.Lstat fs d with
        | Err e =>
            if os.IsNotExist e then
              if failWhenMissingDir s then (fs, Err (ErrDirDoesNotExist d))
              else
                match os.MkdirAll fs d with
                | (fs', Some mkdirErr) => (fs', Err (ErrMkdirFailed d mkdirErr))
                | (fs', None) => (fs', Ok s)
                end
            else (fs, Err (ErrLstatFailed d e))
        | Ok isDir =>
            if negb isDir then (fs, Err (ErrNotADirectory d))
            else (fs, Ok s)
        end
    end.

(** *** Writer options *)

Record WriterOptions : Type := mkWriterOptions {
  time : time_Time;
  sync : option (os.File -> option error)
}.

Definition WriterOption : Type := WriterOptions -> WriterOptions * option error.

Definition WriteTime (t : time_Time) : WriterOption := fun o =>
  ({| time := t; sync := sync o |}, None).

Definition NoSync : WriterOption := fun o =>
  ({| time := time o; sync := Some (fun _ => None) |}, None).

(** *** What the sources leave out *)

(** The files of the package that hold [newHash], [dataFilename],
    [checksumFileForDataFile], [versions], [openWriter] and the type
    behind [Writer] are not part of the sources; the definitions below
    take them as an environment. *)
Class Env : Type := mkEnv {
  newHash : checksum.Hash;
  dataFilename : string -> time_Time -> string;
  checksumFileForDataFile : string -> string;
  versions : string -> os.FS -> result error (list Version);
  writer : Type;
  (** Modelled from the spec: [openWriter] allocates the name of a new
      version and opens its data file; of the store it is given it may
      advance [lastVersionTime], and it changes files.  It has no access
      to the call counters or the read metrics. *)
  openWriter :
    Store -> os.FS -> list (option WriterOption) ->
    time_Time * os.FS * result error writer
}.

Section WithEnv.
Context {E : Env}.

(** *** Readers *)

Record ReaderOptions : Type := mkReaderOptions {
  chooseVersion : list Version -> result error Version
}.

Definition ReaderOption : Type := ReaderOptions -> ReaderOptions * option error.

(** The loop of the selector that [Time] installs. *)
Fixpoint chooseByTime (t : time_Time) (vs : list Version) : result error Version :=
  match vs with
  | [] => Err (ErrVersionNotFound (TimeNotFound t))
  | version :: rest =>
      if Version_Time version =? t then Ok version
      else chooseByTime t rest
  end.

Definition Time (t : time_Time) : ReaderOption := fun _ =>
  ({| chooseVersion := chooseByTime t |}, None).

(** The order [Versions] documents: sorted by time, oldest first. *)
Fixpoint oldestFirst (vs : list Version) : bool :=
  match vs with
  | a :: (b :: _) as rest => (Version_Time a <=? Version_Time b) && oldestFirst rest
  | _ => true
  end.

(** [versions[len(versions)-1]] *)
Definition chooseLast (vs : list Version) : result error Version :=
  match last vs with
  | Some v => Ok v
  | None => Err ErrIndexOutOfRange
  end.

Record reader : Type := mkReader {
  file : os.File;
  version : Version;
  checksum : checksum.hstate newHash;
  r_areChecksumsEqual : bytes -> bytes -> bool
}.

Definition openReader (s : Store) (fs : os.FS)
    (options : list (option ReaderOption))
    (eq : bytes -> bytes -> bool) : result error reader :=
  let opts := {| chooseVersion := chooseLast |} in
  match applyOptions options opts with
  | Err e => Err e
  | Ok opts =>
      match versions (dir s) fs with
      | Err e => Err (ErrReadingVersions (dir s) e)
      | Ok vs =>
          if (length vs =? 0)%nat then Err (ErrVersionNotFound NoVersionFound)
          else
            match chooseVersion opts vs with
            | Err e => Err e
            | Ok v =>
                let name := dataFilename (dir s) (Version_Time v) in
                match os.Open fs name with
                | Err e => Err (ErrOpeningFile name e)
                | Ok f =>
                    Ok {| file := f; version := v;
                          checksum := checksum.hnew newHash;
                          r_areChecksumsEqual := eq |}
                end
            end
      end
  end.

Definition with_ReadMetrics (s : Store) (m : ReadMetrics) : Store :=
  {| failWhenMissingDir := failWhenMissingDir s;
     areChecksumsEqual := areChecksumsEqual s;
     dir := dir s;
     lastVersionTime := lastVersionTime s;
     metrics := {| Read_ := m; Write_ := Write_ (metrics s) |} |}.

(** [(s *Store) Reader] *)
Definition Reader (s : Store) (fs : os.FS) (options : list (option ReaderOption))
  : Store * result error reader :=
  let m := Read_ (metrics s) in
  let s' := with_ReadMetrics s
              {| ReaderCalls := add_i64 (ReaderCalls m) 1;
                 TotalBytesRead := TotalBytesRead m;
                 TotalTime := TotalTime m |} in
  (s', openReader s' fs options (areChecksumsEqual s')).

Definition readChecksum (fs : os.FS) (r : reader) : result os.errno bytes :=
  os.ReadFile fs (checksumFileForDataFile (os.Name (file r))).

Definition validateChecksum (fs : os.FS) (r : reader) : option error :=
  let actual := checksum.hSum newHash (checksum r) [] in
  match readChecksum fs r with
  | Err e => Some (ErrReadingChecksum e)
  | Ok expected =>
      if negb (r_areChecksumsEqual r expected actual)
      then Some (ErrInvalidChecksum (os.Name (file r)))
      else None
  end.

(** [r.metrics.TotalTime += time.Since(start)] *)
Definition addElapsedTime (m : ReadMetrics) (elapsed : Z) : ReadMetrics :=
  {| ReaderCalls := ReaderCalls m;
     TotalBytesRead := TotalBytesRead m;
     TotalTime := add_i64 (TotalTime m) elapsed |}.

Definition of_read_error (e : os.read_error) : error :=
  match e with
  | os.EOF => ErrEOF
  | os.ReadErrno e => ErrRead e
  end.

(** [(r *reader) Read(p)] with [len(p) = n].  [elapsed] is what
    [time.Since(start)] gives when the deferred call runs.  The result
    holds the bytes stored in [p[:n]] and the error. *)
Definition Read (fs : os.FS) (r : reader) (m : ReadMetrics) (n : nat) (elapsed : Z)
  : reader * ReadMetrics * (bytes * option error) :=
  let '(f, p, err) := os.Read (file r) n in
  let r := {| file := f; version := version r; checksum := checksum r;
              r_areChecksumsEqual := r_areChecksumsEqual r |} in
  let failed :=
    match err with
    | Some os.EOF => validateChecksum fs r
    | _ => None
    end in
  match failed with
  | Some err2 => (r, addElapsedTime m elapsed, (p, Some err2))
  | None =>
      let r := {| file := file r; version := version r;
                  checksum := checksum.hWrite newHash (checksum r) p;
                  r_areChecksumsEqual := r_areChecksumsEqual r |} in
      let m := {| ReaderCalls := ReaderCalls m;
                  TotalBytesRead := add_i64 (TotalBytesRead m) (Z.of_nat (length p));
                  TotalTime := TotalTime m |} in
      (r, addElapsedTime m elapsed, (p, option_map of_read_error err))
  end.

(** [(r *reader) Close] *)
Definition Close (fs : os.FS) (r : reader) (m : ReadMetrics) (elapsed : Z)
  : reader * ReadMetrics * option error :=
  match os.Close (file r) with
  | (_, Some err) => (r, addElapsedTime m elapsed, Some (ErrClosingFile err))
  | (f, None) =>
      let r := {| file := f; version := version r; checksum := checksum r;
                  r_areChecksumsEqual := r_areChecksumsEqual r |} in
      (r, addElapsedTime m elapsed, validateChecksum fs r)
  end.

(** *** Writers and deletion *)

(** [(s *Store) Writer] *)
Definition Writer (s : Store) (fs : os.FS) (options : list (option WriterOption))
  : Store * os.FS * result error writer :=
  let s' := {| failWhenMissingDir := failWhenMissingDir s;
               areChecksumsEqual := areChecksumsEqual s;
               dir := dir s;
               lastVersionTime := lastVersionTime s;
               metrics :=
                 {| Read_ := Read_ (metrics s);
                    Write_ := {| WriterCalls :=
                                   add_i64 (WriterCalls (Write_ (metrics s))) 1 |} |} |} in
  let '(t, fs', w) := openWriter s' fs options in
  ({| failWhenMissingDir := failWhenMissingDir s';
      areChecksumsEqual := areChecksumsEqual s';
      dir := dir s';
      lastVersionTime := t;
      metrics := metrics s' |}, fs', w).

(** The loop of [DeleteVersion] over the files to remove. *)
Fixpoint removeFiles (fs : os.FS) (t : time_Time) (files : list string)
  : os.FS * option error :=
  match files with
  | [] => (fs, None)
  | f :: rest =>
      match os.Remove fs f with
      | (fs', Some err) =>
          if os.IsNotExist err
          then (fs', Some (ErrVersionNotFound (TimeDoesNotExist t)))
          else (fs', Some (ErrRemovingFile f err))
      | (fs', None) => removeFiles fs' t rest
      end
  end.

Definition DeleteVersion (s : Store) (fs : os.FS) (t : time_Time)
  : os.FS * option error :=
  let dataFile := dataFilename (dir s) t in
  let checksumFile := checksumFileForDataFile dataFile in
  removeFiles fs t [dataFile; checksumFile].

(** *** A store in use

    The store, the files and the readers it has handed out; the
    operations a caller performs on them, one at a time.  A reader is
    named by its position in the order of creation. *)
Record World : Type := mkWorld {
  w_fs : os.FS;
  w_store : Store;
  w_readers : list reader
}.

Inductive Op : Type :=
| OpWriter (options : list (option WriterOption))
| OpReader (options : list (option ReaderOption))
| OpRead (i : nat) (n : nat) (elapsed : Z)
| OpClose (i : nat) (elapsed : Z).

Definition step (w : World) (op : Op) : World :=
  match op with
  | OpWriter options =>
      let '(s, fs, _) := Writer (w_store w) (w_fs w) options in
      {| w_fs := fs; w_store := s; w_readers := w_readers w |}
  | OpReader options =>
      let '(s, res) := Reader (w_store w) (w_fs w) options in
      {| w_fs := w_fs w; w_store := s;
         w_readers := match res with
                      | Ok r => w_readers w ++ [r]
                      | Err _ => w_readers w
                      end |}
  | OpRead i n elapsed =>
      match w_readers w !! i with
      | None => w
      | Some r =>
          let '(r', m, _) :=
            Read (w_fs w) r (Read_ (metrics (w_store w))) n elapsed in
          {| w_fs := w_fs w;
             w_store := with_ReadMetrics (w_store w) m;
             w_readers := <[i := r']> (w_readers w) |}
      end
  | OpClose i elapsed =>
      match w_readers w !! i with
      | None => w
      | Some r =>
          let '(r', m, _) :=
            Close (w_fs w) r (Read_ (metrics (w_store w))) elapsed in
          {| w_fs := w_fs w;
             w_store := with_ReadMetrics (w_store w) m;
             w_readers := <[i := r']> (w_readers w) |}
      end
  end.

Definition run (w : World) (ops : list Op) : World := fold_left step ops w.

(** [(s *Store) Metrics] *)
Definition Metrics_ (s : Store) : Metrics := metrics s.

(** The bytes a [Read] of reader [i] with a buffer of length [n] would
    deliver in [w]. *)
Definition delivered (w : World) (i n : nat) : bytes :=
  match w_readers w !! i with
  | None => []
  | Some r => fst (snd (Read (w_fs w) r (Read_ (metrics (w_store w))) n 0))
  end.

(** The operation keeps every counter within its type: the clock that
    [time.Since] reads does not run backwards, and no sum leaves the
    range of [int64]. *)
Definition fits (w : World) (op : Op) : Prop :=
  let m := metrics (w_store w) in
  match op with
  | OpWriter _ => WriterCalls (Write_ m) + 1 <= max_int64
  | OpReader _ => ReaderCalls (Read_ m) + 1 <= max_int64
  | OpRead i n elapsed =>
      0 <= elapsed
      /\ TotalTime (Read_ m) + elapsed <= max_int64
      /\ TotalBytesRead (Read_ m) + Z.of_nat (length (delivered w i n)) <= max_int64
  | OpClose i elapsed =>
      0 <= elapsed /\ TotalTime (Read_ m) + elapsed <= max_int64
  end.

Fixpoint all_fit (w : World) (ops : list Op) : Prop :=
  match ops with
  | [] => True
  | op :: rest => fits w op /\ all_fit (step w op) rest
  end.

Definition counters (m : Metrics) : list Z :=
  [WriterCalls (Write_ m); ReaderCalls (Read_ m);
   TotalBytesRead (Read_ m); TotalTime (Read_ m)].

(** No counter of [a] is above the same counter of [b]. *)
Definition metrics_le (a b : Metrics) : Prop :=
  Forall2 Z.le (counters a) (counters b).

Definition in_range (m : Metrics) : Prop :=
  Forall (fun c => 0 <= c <= max_int64) (counters m).

(** A caller that reads with a buffer of [n] bytes until [Read] returns
    an error, and keeps what it was given.  [None]: the fuel ran out. *)
Fixpoint drain (fuel : nat) (fs : os.FS) (r : reader) (m : ReadMetrics)
    (n : nat) (acc : bytes) : option (reader * ReadMetrics * (bytes * error)) :=
  match fuel with
  | O => None
  | S fuel =>
      let '(r', m', (p, err)) := Read fs r m n 0 in
      match err with
      | Some e => Some (r', m', (acc ++ p, e))
      | None => drain fuel fs r' m' n (acc ++ p)
      end
  end.

(** How many operations of a sequence call [Writer], and how many call
    [Reader]. *)
Definition isOpWriter (op : Op) : bool :=
  match op with OpWriter _ => true | _ => false end.

Definition isOpReader (op : Op) : bool :=
  match op with OpReader _ => true | _ => false end.

Fixpoint calls (which : Op -> bool) (ops : list Op) : Z :=
  match ops with
  | [] => 0
  | op :: rest => (if which op then 1 else 0) + calls which rest
  end.

(** The reader options the package itself offers, and [nil]. *)
Definition selectorOption (o : option ReaderOption) : Prop :=
  o = None \/ exists t, o = Some (Time t).

(** The hash of a reader of a regular file has been fed the bytes of the
    file up to the read offset, and no others. *)
Definition tracked (r : reader) : Prop :=
  match os.data (file r) with
  | Some d =>
      checksum r
      = checksum.hWrite newHash (checksum.hnew newHash) (take (os.offset (file r)) d)
  | None => True
  end.

End WithEnv.

End store.

(** ** Package deebee *)

Module deebee.

Inductive error : Type :=
| ErrNilDir
| ErrClient (msg : string)
| ErrApplyingOptionFailed (e : error)
| ErrConfiguredTwice
| ErrOther (msg : string).

(** The [Dir] interface, as far as [Open] and [nextVersionFilename] call
    it: the results of [Exists] and [ListFiles]. *)
Record Dir : Type := mkDir {
  path : string;
  Exists : result error bool;
  ListFiles : result error (list string)
}.

(** The [FileIntegrityChecker] interface; of its methods only
    [LatestIntegralFilename] is kept. *)
Record FileIntegrityChecker : Type := mkChecker {
  LatestIntegralFilename : Dir -> result error string
}.

(** An interface value may be [nil]: [None]. *)
Record DB : Type := mkDB {
  dir : Dir;
  fileIntegrityChecker : option FileIntegrityChecker
}.

Definition Option : Type := DB -> DB * option error.

Definition setFileIntegrityChecker (db : DB) (checker : option FileIntegrityChecker)
  : DB * option error :=
  match fileIntegrityChecker db with
  | Some _ => (db, Some ErrConfiguredTwice)
  | None => ({| dir := dir db; fileIntegrityChecker := checker |}, None)
  end.

Definition IntegrityChecker (checker : option FileIntegrityChecker) : Option :=
  fun db => setFileIntegrityChecker db checker.

(** [ChecksumIntegrityChecker()], the option [Open] falls back to, is not
    part of the sources: it is an argument of what follows. *)
Definition useDefaultFileIntegrityCheckerIfNotSet
    (ChecksumIntegrityChecker : Option) (db : DB) : DB * option error :=
  match fileIntegrityChecker db with
  | Some _ => (db, None)
  | None => ChecksumIntegrityChecker db
  end.

Fixpoint applyOptions (options : list (option Option)) (db : DB) : result error DB :=
  match options with
  | [] => Ok db
  | None :: rest => applyOptions rest db
  | Some apply :: rest =>
      match apply db with
      | (_, Some err) => Err (ErrApplyingOptionFailed err)
      | (db', None) => applyOptions rest db'
      end
  end.

Definition Open (ChecksumIntegrityChecker : Option)
    (d : option Dir) (options : list (option Option)) : result error DB :=
  match d with
  | None => Err ErrNilDir
  | Some d =>
      match Exists d with
      | Err err => Err err
      | Ok dirExists =>
          if negb dirExists then Err (ErrClient ("database dir " ++ path d ++ " not found"))
          else
            match applyOptions options {| dir := d; fileIntegrityChecker := None |} with
            | Err err => Err err
            | Ok db =>
                match useDefaultFileIntegrityCheckerIfNotSet ChecksumIntegrityChecker db with
                | (_, Some err) => Err err
                | (db, None) => Ok db
                end
            end
      end
  end.

(** The options list sets the file-integrity checker at two places. *)
Definition sets_checker_twice (options : list (option Option)) : Prop :=
  exists pre c1 mid c2 post,
    options = pre ++ [Some (IntegrityChecker c1)] ++ mid
                  ++ [Some (IntegrityChecker c2)] ++ post.

(** An option that leaves a checker that is set in place when it returns
    no error; a [nil] option is skipped. *)
Definition keeps_checker (o : option Option) : Prop :=
  match o with
  | None => True
  | Some apply =>
      forall db, is_Some (fileIntegrityChecker db) ->
                 snd (apply db) = None ->
                 is_Some (fileIntegrityChecker (fst (apply db)))
  end.

(** An option that puts the empty handle in place of the handle it is
    given, as a caller's [*db = deebee.DB{}] does but for the directory. *)
Definition reset : Option := fun db =>
  ({| dir := dir db; fileIntegrityChecker := None |}, None).

(** An option that is [nil] or sets the checker. *)
Definition setsChecker (o : option Option) : Prop :=
  o = None \/ exists c, o = Some (IntegrityChecker c).

(** *** Version file names

    [filename], [filterDatafiles], [youngestFilename] and
    [generateFilename] are not part of the sources.  How a version number
    is serialized is left open: the two directions of the naming are
    parameters. *)

Class Names : Type := {
  (** the name a version number is serialized to *)
  generateFilename : Z -> string;
  (** the version number a directory entry stands for, if it names a data
      file *)
  parseFilename : string -> option Z
}.

(** Modelled from the spec: [filename], a data file with the version
    number its name parses back to; the number is a Go [int]. *)
Record filename : Type := mkFilename {
  name : string;
  version : Z
}.

Section Naming.
Context {N : Names}.

(** Modelled from the spec: [filterDatafiles] keeps the directory entries
    that parse as a version; sidecar files and incidental entries are
    filtered out. *)
Definition filterDatafiles (files : list string) : list filename :=
  omap (fun entry =>
          match parseFilename entry with
          | Some v => Some {| name := entry; version := v |}
          | None => None
          end) files.

(** Modelled from the spec: [youngestFilename], the chronologically latest
    data file, is the one with the greatest version number; there is none
    in an empty list. *)
Fixpoint youngestFilename (fs : list filename) : option filename :=
  match fs with
  | [] => None
  | f :: rest =>
      match youngestFilename rest with
      | Some g => if version f <? version g then Some g else Some f
      | None => Some f
      end
  end.

(** [(db *DB) nextVersionFilename]; the sum [filename.version + 1] wraps
    around as Go's [int] does. *)
Definition nextVersionFilename (stateDir : Dir) : result error string :=
  match ListFiles stateDir with
  | Err err => Err err
  | Ok files =>
      match youngestFilename (filterDatafiles files) with
      | None => Ok "0"
      | Some filename =>
          let version := add_i64 (version filename) 1 in
          Ok (generateFilename version)
      end
  end.

End Naming.

End deebee.

(** ** Fixtures

    A store directory with two versions, for the examples below: version 1
    holds "old" with the sidecar its content hashes to, version 2 holds
    "data" with a sidecar that reads ALTERED. *)

Module example.

(** Names in decimal, as [strconv.Itoa] writes them; an entry that is not
    a decimal numeral (a sidecar carries an extension) is no data file. *)
Definition generateFilename (version : Z) : string :=
  NilZero.string_of_int (Z.to_int version).

Definition parseFilename (s : string) : option Z :=
  match NilEmpty.uint_of_string s with
  | Some u => if String.eqb s "" then None else Some (Z.of_uint u)
  | None => None
  end.

Definition names : deebee.Names :=
  {| deebee.generateFilename := generateFilename;
     deebee.parseFilename := parseFilename |}.

Definition dataFilename (dir : string) (t : store.time_Time) : string :=
  (dir ++ "/" ++ generateFilename t)%string.

Definition checksumFileForDataFile (f : string) : string :=
  (f ++ ".fnv128a")%string.

Definition digest (b : bytes) : bytes :=
  checksum.Marshal (checksum.hashSum_Write (checksum.NewSum checksum.FNV128a) b).

Definition v1 : store.Version := {| store.Version_Time := 1; store.Size := 3 |}.
Definition v2 : store.Version := {| store.Version_Time := 2; store.Size := 4 |}.

Definition env : store.Env :=
  {| store.newHash := checksum.fnv128a;
     store.dataFilename := dataFilename;
     store.checksumFileForDataFile := checksumFileForDataFile;
     store.versions := fun _ _ => Ok [v1; v2];
     store.writer := unit;
     store.openWriter := fun s fs _ => (store.lastVersionTime s, fs, Ok tt) |}.

Definition files (sidecar2 : bytes) : os.FS :=
  <["/db" := os.Directory]>
  (<["/db/1" := os.RegularFile (bytes_of_string "old")]>
  (<["/db/1.fnv128a" := os.RegularFile (digest (bytes_of_string "old"))]>
  (<["/db/2" := os.RegularFile (bytes_of_string "data")]>
  (<["/db/2.fnv128a" := os.RegularFile sidecar2]> ∅)))).

Definition altered : os.FS := files store.ALTERED.

(** The same files with the sidecar version 2 was written with. *)
Definition intact : os.FS := files (digest (bytes_of_string "data")).

(** The sidecar of version 2 with its first byte changed. *)
Definition corrupted : os.FS :=
  files (x00 :: tl (digest (bytes_of_string "data"))).

Definition opened : store.Store :=
  {| store.failWhenMissingDir := false;
     store.areChecksumsEqual := store.defaultAreChecksumsEqual;
     store.dir := "/db";
     store.lastVersionTime := 0;
     store.metrics := store.zeroMetrics |}.

(** The reader [Reader()] hands out for version 2. *)
Definition reader2 : store.reader (E := env) :=
  @store.mkReader env
    {| os.Name := "/db/2"; os.data := Some (bytes_of_string "data");
       os.offset := 0; os.closed := false |}
    v2 checksum.New128a store.defaultAreChecksumsEqual.

(** [reader2] after "data" was read from it. *)
Definition reader2_read : store.reader (E := env) :=
  @store.mkReader env
    {| os.Name := "/db/2"; os.data := Some (bytes_of_string "data");
       os.offset := 4; os.closed := false |}
    v2 (checksum.sum128a_Write checksum.New128a (bytes_of_string "data"))
    store.defaultAreChecksumsEqual.

(** A store that was just opened, and a session on it. *)
Definition world : store.World (E := env) :=
  {| store.w_fs := altered; store.w_store := opened; store.w_readers := [] |}.

Definition session : list store.Op :=
  [store.OpReader []; store.OpRead 0 3 10; store.OpWriter [];
   store.OpRead 0 3 5; store.OpRead 0 3 5; store.OpClose 0 7].

Definition existingDir : deebee.Dir :=
  {| deebee.path := "db"; deebee.Exists := Ok true;
     deebee.ListFiles := Ok ["0"; "0.fnv128a"; "1"; "1.fnv128a"; "tmp"] |}.

Definition checker : deebee.FileIntegrityChecker :=
  {| deebee.LatestIntegralFilename := fun _ => Ok "1" |}.

Definition defaultOption : deebee.Option :=
  deebee.IntegrityChecker (Some checker).

End example.

(** * Properties *)

(** Closed goals over the fixtures are settled by evaluation. *)
Ltac evaluated := vm_compute; first [reflexivity | discriminate | exact I].

(** C3: the FNV-128a sum of "data" marshals to the bytes whose hexadecimal
    form is 695b598c64757277b806e9704d5d6a5d, and writing "da" and then
    "ta" into a fresh sum marshals to the same digest. *)
Theorem fnv128a_data_digest :
  let one :=
    checksum.hashSum_Write (checksum.NewSum checksum.FNV128a)
      (bytes_of_string "data") in
  let two :=
    checksum.hashSum_Write
      (checksum.hashSum_Write (checksum.NewSum checksum.FNV128a)
         (bytes_of_string "da"))
      (bytes_of_string "ta") in
  hex (checksum.Marshal one) = "695b598c64757277b806e9704d5d6a5d"
  /\ checksum.Marshal two = checksum.Marshal one.
Proof. split; evaluated. Qed.

(** ** Bytes, wrap-around and hashes *)

Lemma bytes_Equal_eq (a b : bytes) : bytes_Equal a b = true <-> a = b.
Proof.
  revert b; induction a as [|x a IH]; intros [|y b]; simpl; split;
    try congruence; try reflexivity.
  - intros H. apply andb_true_iff in H as [Hx Hr].
    apply Byte.byte_dec_bl in Hx. apply IH in Hr. congruence.
  - intros [= -> ->]. apply andb_true_iff. split.
    + apply Byte.byte_dec_lb; reflexivity.
    + apply IH; reflexivity.
Qed.

Lemma bytes_Equal_neq (a b : bytes) : a <> b -> bytes_Equal a b = false.
Proof.
  intros H. destruct (bytes_Equal a b) eqn:Heq; [|reflexivity].
  apply bytes_Equal_eq in Heq. contradiction.
Qed.

Lemma wrap_i64_small (z : Z) : min_int64 <= z <= max_int64 -> wrap_i64 z = z.
Proof.
  unfold wrap_i64, min_int64, max_int64. intros H.
  rewrite Z.mod_small; lia.
Qed.

Lemma add_i64_exact (a b : Z) :
  0 <= a -> 0 <= b -> a + b <= max_int64 -> add_i64 a b = a + b.
Proof.
  intros Ha Hb Hab. unfold add_i64. apply wrap_i64_small.
  unfold min_int64. lia.
Qed.

Lemma fnv128a_streaming : checksum.streaming checksum.fnv128a.
Proof.
  split.
  - intros s. reflexivity.
  - intros s a b. simpl. unfold checksum.sum128a_Write.
    symmetry. apply fold_left_app.
Qed.

(** ** Verification of a reader *)

Section ReaderFacts.
Context {E : store.Env}.

Lemma default_comparison_rejects (expected actual : bytes) :
  expected <> actual ->
  expected <> store.ALTERED ->
  expected <> store.ALTERED_LF ->
  expected <> store.ALTERED_CRLF ->
  store.defaultAreChecksumsEqual expected actual = false.
Proof.
  intros H1 H2 H3 H4. unfold store.defaultAreChecksumsEqual.
  rewrite !bytes_Equal_neq by assumption. reflexivity.
Qed.

(** What [os.Read] gives at the end of an open regular file. *)
Lemma os_Read_at_end (f : os.File) (d : bytes) (n : nat) :
  os.closed f = false -> os.data f = Some d ->
  (length d <= os.offset f)%nat -> (0 < n)%nat ->
  os.Read f n = (f, [], Some os.EOF).
Proof.
  intros Hc Hd Hoff Hn. unfold os.Read. rewrite Hc, Hd.
  rewrite drop_ge by lia. rewrite take_nil.
  destruct n; [lia | reflexivity].
Qed.

Lemma reader_eta (r : store.reader) :
  {| store.file := store.file r; store.version := store.version r;
     store.checksum := store.checksum r;
     store.r_areChecksumsEqual := store.r_areChecksumsEqual r |} = r.
Proof. destruct r; reflexivity. Qed.

(** At the end of the file [Read] returns what [validateChecksum] found,
    and the end-of-stream error only when it found nothing. *)
Lemma Read_at_end (fs : os.FS) (r : store.reader) (m : store.ReadMetrics)
    (n : nat) (elapsed : Z) (d : bytes) :
  os.closed (store.file r) = false -> os.data (store.file r) = Some d ->
  (length d <= os.offset (store.file r))%nat -> (0 < n)%nat ->
  snd (store.Read fs r m n elapsed) =
    ([], Some (match store.validateChecksum fs r with
               | Some err2 => err2
               | None => store.ErrEOF
               end)).
Proof.
  intros Hc Hd Hoff Hn. unfold store.Read.
  rewrite (os_Read_at_end _ d) by assumption.
  rewrite reader_eta.
  destruct (store.validateChecksum fs r); reflexivity.
Qed.

End ReaderFacts.

(** C1, as the code has it: a reader that holds the comparison [Open]
    installs reports a verification error whenever the bytes of the sidecar
    differ from the digest of the bytes read, unless the sidecar reads
    ALTERED, with or without a line end; such a sidecar is accepted.  The
    error comes from [validateChecksum], hence from [Close] and from a
    [Read] at the end of the file. *)
Theorem verification_error_unless_altered
    (E : store.Env) (fs : os.FS) (r : store.reader) (expected : bytes) :
  store.r_areChecksumsEqual r = store.defaultAreChecksumsEqual ->
  store.readChecksum fs r = Ok expected ->
  let failure := Some (store.ErrInvalidChecksum (os.Name (store.file r))) in
  (expected <> checksum.hSum store.newHash (store.checksum r) [] ->
   expected <> store.ALTERED ->
   expected <> store.ALTERED_LF ->
   expected <> store.ALTERED_CRLF ->
   store.validateChecksum fs r = failure
   /\ (os.closed (store.file r) = false ->
       forall m elapsed, snd (store.Close fs r m elapsed) = failure)
   /\ (forall d n m elapsed,
         os.closed (store.file r) = false -> os.data (store.file r) = Some d ->
         (length d <= os.offset (store.file r))%nat -> (0 < n)%nat ->
         snd (store.Read fs r m n elapsed) = ([], failure)))
  /\ (expected = store.ALTERED \/ expected = store.ALTERED_LF
      \/ expected = store.ALTERED_CRLF ->
      store.validateChecksum fs r = None).
Proof.
  intros Heq Hside failure. split.
  - intros Hne Ha Hlf Hcrlf.
    assert (Hv : store.validateChecksum fs r = failure).
    { unfold store.validateChecksum. rewrite Hside, Heq.
      rewrite default_comparison_rejects by assumption. reflexivity. }
    split; [exact Hv|]. split.
    + intros Hc m elapsed. unfold store.Close, os.Close. rewrite Hc. simpl.
      unfold store.validateChecksum, store.readChecksum in *. simpl. exact Hv.
    + intros d n m elapsed Hc Hd Hoff Hn.
      rewrite (Read_at_end fs r m n elapsed d) by assumption.
      rewrite Hv. reflexivity.
  - intros Haltered. unfold store.validateChecksum. rewrite Hside, Heq.
    unfold store.defaultAreChecksumsEqual.
    assert (Hself : forall b, bytes_Equal b b = true)
      by (intros b; apply bytes_Equal_eq; reflexivity).
    destruct Haltered as [->|[->| ->]]; rewrite Hself, ?orb_true_r; reflexivity.
Qed.

Lemma verification_error_unless_altered_witness :
  store.validateChecksum example.corrupted example.reader2_read
  = Some (store.ErrInvalidChecksum "/db/2")
  /\ snd (store.Close example.corrupted example.reader2_read
            (store.Read_ store.zeroMetrics) 5)
     = Some (store.ErrInvalidChecksum "/db/2").
Proof.
  destruct (verification_error_unless_altered example.env example.corrupted
              example.reader2_read
              (x00 :: tl (example.digest (bytes_of_string "data"))))
    as [Hrejected _].
  - reflexivity.
  - evaluated.
  - destruct Hrejected as (Hv & Hclose & _).
    + evaluated.
    + evaluated.
    + evaluated.
    + evaluated.
    + split; [exact Hv | apply Hclose; reflexivity].
Defined.

(** C1, as the claim has it, fails: the sidecar of version 2 reads ALTERED,
    which is not the digest of "data"; the reader [Reader()] hands out
    delivers "data", ends with the end-of-stream error and closes without
    an error. *)
Lemma altered_sidecar_is_accepted :
  snd (store.Open example.altered "/db" []) = Ok example.opened
  /\ snd (store.Reader example.opened example.altered []) = Ok example.reader2
  /\ store.r_areChecksumsEqual example.reader2 = store.defaultAreChecksumsEqual
  /\ store.drain 5 example.altered example.reader2
       (store.Read_ store.zeroMetrics) 3 []
     = Some (example.reader2_read,
             {| store.ReaderCalls := 0; store.TotalBytesRead := 4;
                store.TotalTime := 0 |},
             (bytes_of_string "data", store.ErrEOF))
  /\ store.readChecksum example.altered example.reader2_read = Ok store.ALTERED
  /\ store.ALTERED
     <> checksum.hSum store.newHash (store.checksum example.reader2_read) []
  /\ store.validateChecksum example.altered example.reader2_read = None
  /\ snd (store.Close example.altered example.reader2_read
            (store.Read_ store.zeroMetrics) 0) = None.
Proof.
  split; [evaluated|].
  split; [reflexivity|].
  split; [reflexivity|].
  split; [reflexivity|].
  split; [evaluated|].
  split; [evaluated|].
  split; evaluated.
Qed.

(** ** Reading to the end *)

Section DrainFacts.
Context {E : store.Env}.
Hypothesis Hstream : checksum.streaming store.newHash.

Lemma take_S_nil {A} (n : nat) (l : list A) : take (S n) l = [] -> l = [].
Proof. destruct l; simpl; congruence. Qed.

Lemma take_drop_length {A} (k : nat) (l : list A) :
  take k l ++ drop (length (take k l)) l = l.
Proof.
  rewrite length_take. destruct (Nat.le_gt_cases k (length l)) as [H|H].
  - rewrite Nat.min_l by assumption. apply take_drop.
  - rewrite Nat.min_r by lia. rewrite take_ge by lia.
    rewrite drop_all. apply app_nil_r.
Qed.

Lemma drain_delivers (fuel : nat) :
  forall (fs : os.FS) (r : store.reader) (m : store.ReadMetrics) (n : nat)
         (acc d expected : bytes),
    os.closed (store.file r) = false ->
    os.data (store.file r) = Some d ->
    (0 < n)%nat ->
    (length d - os.offset (store.file r) < fuel)%nat ->
    store.readChecksum fs r = Ok expected ->
    let rest := drop (os.offset (store.file r)) d in
    let digest :=
      checksum.hSum store.newHash
        (checksum.hWrite store.newHash (store.checksum r) rest) [] in
    exists r' m',
      store.drain fuel fs r m n acc =
        Some (r', m',
              (acc ++ rest,
               if store.r_areChecksumsEqual r expected digest
               then store.ErrEOF
               else store.ErrInvalidChecksum (os.Name (store.file r)))).
Proof.
  destruct Hstream as [Hnil Happ].
  induction fuel as [|fuel IH]; intros fs r m n acc d expected Hc Hd Hn Hfuel Hside;
    [lia|].
  destruct n as [|n]; [lia|].
  cbn zeta. simpl store.drain. unfold store.Read, os.Read.
  rewrite Hc, Hd.
  destruct (take (S n) (drop (os.offset (store.file r)) d)) as [|b chunk] eqn:Hchunk.
  - apply take_S_nil in Hchunk. rewrite Hchunk. rewrite !Hnil. rewrite app_nil_r.
    rewrite reader_eta.
    unfold store.validateChecksum. rewrite Hside.
    destruct (store.r_areChecksumsEqual r expected _); simpl; rewrite ?app_nil_r; eauto.
  - assert (Hrest : drop (os.offset (store.file r)) d
                    = (b :: chunk) ++ drop (os.offset (store.file r) + length (b :: chunk)) d).
    { rewrite <- Hchunk, <- drop_drop. symmetry. apply take_drop_length. }
    simpl.
    match goal with
    | |- context [store.drain fuel fs ?r1 ?m1 _ _] =>
        destruct (IH fs r1 m1 (S n) (acc ++ b :: chunk) d expected)
          as (r' & m' & Hdr)
    end; simpl; try assumption; try reflexivity; try lia.
    + assert (Hlen : (length (b :: chunk) <= length d - os.offset (store.file r))%nat)
        by (rewrite <- Hchunk, length_take, length_drop; lia).
      simpl in Hlen. lia.
    + rewrite Hdr. exists r', m'. simpl.
      change (S (length chunk)) with (length (b :: chunk)).
      rewrite Happ, <- app_assoc, <- Hrest. reflexivity.
Qed.
End DrainFacts.

(** C2: when the data file is at its end, [Read] compares the digests
    before it reports the end of the stream, and on a mismatch returns the
    verification error in its place.  A caller that reads to the end holds
    every byte of the file (after [acc], what it was given before) in both
    cases: nothing delivered is taken back. *)
Theorem mismatch_replaces_end_of_stream
    (E : store.Env) (fs : os.FS) (r : store.reader) (m : store.ReadMetrics)
    (n fuel : nat) (acc d expected : bytes) :
  checksum.streaming store.newHash ->
  os.closed (store.file r) = false ->
  os.data (store.file r) = Some d ->
  (0 < n)%nat ->
  (length d - os.offset (store.file r) < fuel)%nat ->
  store.readChecksum fs r = Ok expected ->
  let rest := drop (os.offset (store.file r)) d in
  let digest :=
    checksum.hSum store.newHash
      (checksum.hWrite store.newHash (store.checksum r) rest) [] in
  let verdict :=
    if store.r_areChecksumsEqual r expected digest
    then store.ErrEOF
    else store.ErrInvalidChecksum (os.Name (store.file r)) in
  (exists r' m',
     store.drain fuel fs r m n acc = Some (r', m', (acc ++ rest, verdict)))
  /\ (rest = [] ->
      forall elapsed, snd (store.Read fs r m n elapsed) = ([], Some verdict)).
Proof.
  intros Hstream Hc Hd Hn Hfuel Hside rest digest verdict. split.
  - apply drain_delivers; assumption.
  - intros Hrest elapsed.
    assert (Hoff : (length d <= os.offset (store.file r))%nat).
    { apply (f_equal length) in Hrest. unfold rest in Hrest.
      rewrite length_drop in Hrest. simpl in Hrest. lia. }
    rewrite (Read_at_end fs r m n elapsed d) by assumption.
    unfold store.validateChecksum. rewrite Hside.
    subst verdict digest. rewrite Hrest.
    destruct Hstream as [Hnil _]. rewrite Hnil.
    destruct (store.r_areChecksumsEqual r expected _); reflexivity.
Qed.

Lemma mismatch_replaces_end_of_stream_witness :
  exists r' m',
    store.drain 5 example.corrupted example.reader2
      (store.Read_ store.zeroMetrics) 3 []
    = Some (r', m',
            (bytes_of_string "data", store.ErrInvalidChecksum "/db/2")).
Proof.
  destruct (mismatch_replaces_end_of_stream example.env example.corrupted
              example.reader2 (store.Read_ store.zeroMetrics) 3 5 []
              (bytes_of_string "data")
              (x00 :: tl (example.digest (bytes_of_string "data"))))
    as [H _].
  - exact fnv128a_streaming.
  - reflexivity.
  - reflexivity.
  - lia.
  - simpl. lia.
  - evaluated.
  - exact H.
Defined.

(** ** Choosing a version *)

Section VersionSelection.
Context {E : store.Env}.

Lemma applyOptions_nil {S : Type}
    (options : list (option (S -> S * option store.error))) (s : S) :
  Forall (fun o => o = None) options -> store.applyOptions options s = Ok s.
Proof.
  induction 1 as [|o rest Ho _ IH]; simpl; [reflexivity|].
  rewrite Ho. exact IH.
Qed.

Lemma oldestFirst_last (vs : list store.Version) (v : store.Version) :
  store.oldestFirst vs = true -> last vs = Some v ->
  forall u, u ∈ vs -> store.Version_Time u <= store.Version_Time v.
Proof.
  induction vs as [|a [|b rest] IH]; intros Hs Hl u Hu.
  - inversion Hu.
  - simpl in Hl. injection Hl as <-.
    apply list_elem_of_singleton in Hu. subst u. lia.
  - simpl in Hs. apply andb_true_iff in Hs as [Hab Hs].
    apply Z.leb_le in Hab.
    assert (Hb : store.Version_Time b <= store.Version_Time v).
    { apply IH; [exact Hs | exact Hl | left]. }
    apply elem_of_cons in Hu as [->|Hu]; [lia|].
    apply IH; assumption.
Qed.

Lemma chooseByTime_found (t : store.time_Time) (vs : list store.Version)
    (v : store.Version) :
  NoDup (map store.Version_Time vs) -> v ∈ vs -> store.Version_Time v = t ->
  store.chooseByTime t vs = Ok v.
Proof.
  induction vs as [|a rest IH]; intros Hnd Hin Ht; [inversion Hin|].
  simpl in Hnd. apply NoDup_cons in Hnd as [Hna Hnd].
  simpl. destruct (Z.eqb_spec (store.Version_Time a) t) as [Ha|Ha].
  - apply elem_of_cons in Hin as [->|Hin]; [reflexivity|].
    exfalso. apply Hna. rewrite Ha, <- Ht.
    apply list_elem_of_fmap_2. exact Hin.
  - apply elem_of_cons in Hin as [->|Hin]; [contradiction|].
    apply IH; assumption.
Qed.

Lemma chooseByTime_missing (t : store.time_Time) (vs : list store.Version) :
  (forall v, v ∈ vs -> store.Version_Time v <> t) ->
  store.chooseByTime t vs = Err (store.ErrVersionNotFound (store.TimeNotFound t)).
Proof.
  induction vs as [|a rest IH]; intros Hno; [reflexivity|].
  simpl. destruct (Z.eqb_spec (store.Version_Time a) t) as [Ha|Ha].
  - exfalso. apply (Hno a); [left | exact Ha].
  - apply IH. intros v Hv. apply Hno. right. exact Hv.
Qed.

(** [openReader] once the selector has chosen [v] and the data file of
    [v] is there. *)
Lemma openReader_chosen (s : store.Store) (fs : os.FS)
    (options : list (option store.ReaderOption)) (opts : store.ReaderOptions)
    (eq : bytes -> bytes -> bool) (vs : list store.Version) (v : store.Version) :
  store.applyOptions options {| store.chooseVersion := store.chooseLast |} = Ok opts ->
  store.versions (store.dir s) fs = Ok vs ->
  vs <> [] ->
  store.chooseVersion opts vs = Ok v ->
  is_Some (fs !! store.dataFilename (store.dir s) (store.Version_Time v)) ->
  exists r,
    store.openReader s fs options eq = Ok r
    /\ store.version r = v
    /\ os.Name (store.file r) = store.dataFilename (store.dir s) (store.Version_Time v)
    /\ store.r_areChecksumsEqual r = eq.
Proof.
  intros Hopts Hvs Hne Hch [e He]. unfold store.openReader.
  rewrite Hopts, Hvs.
  destruct vs as [|a rest]; [contradiction|]. cbn [length Nat.eqb].
  rewrite Hch. unfold os.Open. rewrite He.
  destruct e; eexists; repeat split; reflexivity.
Qed.

End VersionSelection.

(** C4: when the version list is not empty, a reader opened without a
    selector reads the last version of the list, which in the oldest-first
    order of [Versions] is the newest. *)
Theorem default_reader_reads_newest
    (E : store.Env) (s : store.Store) (fs : os.FS)
    (options : list (option store.ReaderOption)) (vs : list store.Version) :
  Forall (fun o => o = None) options ->
  store.versions (store.dir s) fs = Ok vs ->
  vs <> [] ->
  store.oldestFirst vs = true ->
  (forall v, last vs = Some v ->
             is_Some (fs !! store.dataFilename (store.dir s) (store.Version_Time v))) ->
  exists v r,
    last vs = Some v
    /\ snd (store.Reader s fs options) = Ok r
    /\ store.version r = v
    /\ os.Name (store.file r) = store.dataFilename (store.dir s) (store.Version_Time v)
    /\ forall u, u ∈ vs -> store.Version_Time u <= store.Version_Time v.
Proof.
  intros Hopts Hvs Hne Hsorted Hfile.
  destruct (last vs) as [v|] eqn:Hlast.
  2: { apply last_None in Hlast. contradiction. }
  destruct (openReader_chosen
              (store.with_ReadMetrics s
                 {| store.ReaderCalls :=
                      add_i64 (store.ReaderCalls (store.Read_ (store.metrics s))) 1;
                    store.TotalBytesRead := store.TotalBytesRead (store.Read_ (store.metrics s));
                    store.TotalTime := store.TotalTime (store.Read_ (store.metrics s)) |})
              fs options {| store.chooseVersion := store.chooseLast |}
              (store.areChecksumsEqual s) vs v)
    as (r & Hr & Hv & Hname & _).
  - apply applyOptions_nil. exact Hopts.
  - exact Hvs.
  - exact Hne.
  - simpl. unfold store.chooseLast. rewrite Hlast. reflexivity.
  - simpl. apply Hfile. reflexivity.
  - exists v, r. split; [reflexivity|]. split; [exact Hr|].
    split; [exact Hv|]. split; [exact Hname|].
    apply oldestFirst_last; assumption.
Qed.

Lemma default_reader_reads_newest_witness :
  exists r,
    snd (store.Reader (E := example.env) example.opened example.altered []) = Ok r
    /\ store.version r = example.v2.
Proof.
  destruct (default_reader_reads_newest example.env example.opened
              example.altered [] [example.v1; example.v2])
    as (v & r & Hlast & Hr & Hv & _).
  - constructor.
  - reflexivity.
  - discriminate.
  - reflexivity.
  - intros v Hv. injection Hv as <-. vm_compute. eexists. reflexivity.
  - exists r. split; [exact Hr|]. injection Hlast as <-. exact Hv.
Defined.

(** C5: a reader opened with [Time t] reads the version whose time is [t]
    when the list has one, and fails with the version-not-found error when
    it has none, whatever other versions there are. *)
Theorem time_selector_is_exact
    (E : store.Env) (s : store.Store) (fs : os.FS) (t : store.time_Time)
    (vs : list store.Version) :
  store.versions (store.dir s) fs = Ok vs ->
  NoDup (map store.Version_Time vs) ->
  (forall v, v ∈ vs -> store.Version_Time v = t ->
             is_Some (fs !! store.dataFilename (store.dir s) t) ->
     exists r,
       snd (store.Reader s fs [Some (store.Time t)]) = Ok r
       /\ store.version r = v
       /\ os.Name (store.file r) = store.dataFilename (store.dir s) t)
  /\ ((forall v, v ∈ vs -> store.Version_Time v <> t) ->
      exists m,
        snd (store.Reader s fs [Some (store.Time t)]) = Err (store.ErrVersionNotFound m)
        /\ (vs <> [] -> m = store.TimeNotFound t)).
Proof.
  intros Hvs Hnd. split.
  - intros v Hin Ht Hfile.
    assert (Hne : vs <> []) by (intros ->; inversion Hin).
    destruct (openReader_chosen
                (store.with_ReadMetrics s
                   {| store.ReaderCalls :=
                        add_i64 (store.ReaderCalls (store.Read_ (store.metrics s))) 1;
                      store.TotalBytesRead := store.TotalBytesRead (store.Read_ (store.metrics s));
                      store.TotalTime := store.TotalTime (store.Read_ (store.metrics s)) |})
                fs [Some (store.Time t)] {| store.chooseVersion := store.chooseByTime t |}
                (store.areChecksumsEqual s) vs v)
      as (r & Hr & Hv & Hname & _).
    + reflexivity.
    + exact Hvs.
    + exact Hne.
    + simpl. apply chooseByTime_found; assumption.
    + simpl. rewrite Ht. exact Hfile.
    + exists r. split; [exact Hr|]. split; [exact Hv|].
      rewrite Hname, Ht. reflexivity.
  - intros Hno. unfold store.Reader, store.openReader. simpl.
    rewrite Hvs. destruct vs as [|a rest].
    + exists store.NoVersionFound. split; [reflexivity | congruence].
    + cbn [length Nat.eqb].
      rewrite (chooseByTime_missing t (a :: rest) Hno).
      exists (store.TimeNotFound t). split; reflexivity.
Qed.

Lemma time_selector_is_exact_witness :
  (exists r,
     snd (store.Reader (E := example.env) example.opened example.altered
            [Some (store.Time 1)]) = Ok r
     /\ store.version r = example.v1)
  /\ snd (store.Reader (E := example.env) example.opened example.altered
            [Some (store.Time 3)])
     = Err (store.ErrVersionNotFound (store.TimeNotFound 3)).
Proof.
  split.
  - destruct (time_selector_is_exact example.env example.opened example.altered 1
                [example.v1; example.v2]) as [Hfound _].
    + reflexivity.
    + apply (bool_decide_unpack _). evaluated.
    + destruct (Hfound example.v1) as (r & Hr & Hv & _).
      * left.
      * reflexivity.
      * vm_compute. eexists. reflexivity.
      * exists r. split; assumption.
  - destruct (time_selector_is_exact example.env example.opened example.altered 3
                [example.v1; example.v2]) as [_ Hmissing].
    + reflexivity.
    + apply (bool_decide_unpack _). evaluated.
    + destruct Hmissing as (m & Hm & Hwhich).
      * intros v Hv. apply elem_of_cons in Hv as [->|Hv]; [discriminate|].
        apply list_elem_of_singleton in Hv. subst v. discriminate.
      * rewrite Hm, Hwhich by discriminate. reflexivity.
Defined.

(** ** Deleting a version *)

(** C10: when the data file of [t] is there and its sidecar is not,
    [DeleteVersion] removes the data file and then returns the
    version-not-found error: the files have changed although an error is
    reported. *)
Theorem delete_without_sidecar_removes_data
    (E : store.Env) (s : store.Store) (fs : os.FS) (t : store.time_Time)
    (content : bytes) :
  let dataFile := store.dataFilename (store.dir s) t in
  let checksumFile := store.checksumFileForDataFile dataFile in
  fs !! dataFile = Some (os.RegularFile content) ->
  fs !! checksumFile = None ->
  store.DeleteVersion s fs t
  = (delete dataFile fs,
     Some (store.ErrVersionNotFound (store.TimeDoesNotExist t)))
  /\ delete dataFile fs !! dataFile = None
  /\ delete dataFile fs <> fs.
Proof.
  intros dataFile checksumFile Hdata Hsum.
  assert (Hne : dataFile <> checksumFile) by congruence.
  split; [|split].
  - unfold store.DeleteVersion. fold dataFile. fold checksumFile.
    simpl. unfold os.Remove at 1. rewrite Hdata.
    unfold os.Remove. rewrite lookup_delete_ne by exact Hne.
    rewrite Hsum. reflexivity.
  - apply lookup_delete_eq.
  - intros Heq. rewrite <- Heq, lookup_delete_eq in Hdata. discriminate.
Qed.

Lemma delete_without_sidecar_removes_data_witness :
  let fs := delete "/db/2.fnv128a" example.altered in
  store.DeleteVersion (E := example.env) example.opened fs 2
  = (delete "/db/2" fs, Some (store.ErrVersionNotFound (store.TimeDoesNotExist 2)))
  /\ delete "/db/2" fs !! "/db/2" = None
  /\ delete "/db/2" fs <> fs.
Proof.
  apply (delete_without_sidecar_removes_data example.env example.opened
           (delete "/db/2.fnv128a" example.altered) 2 (bytes_of_string "data")).
  - evaluated.
  - evaluated.
Defined.

(** ** Opening a store *)

Lemma applyOptions_package (options : list (option store.Option)) :
  Forall store.packageOption options ->
  forall s, exists s',
    store.applyOptions options s = Ok s'
    /\ store.dir s' = store.dir s
    /\ (store.failWhenMissingDir s = true -> store.failWhenMissingDir s' = true)
    /\ (Some store.FailWhenMissingDir ∈ options -> store.failWhenMissingDir s' = true)
    /\ (Some store.FailWhenMissingDir ∉ options ->
        store.failWhenMissingDir s' = store.failWhenMissingDir s).
Proof.
  induction 1 as [|o rest Ho _ IH]; intros s.
  - exists s. repeat split; try reflexivity; try tauto.
    intros Hin. inversion Hin.
  - destruct Ho as [->|[->| ->]]; simpl.
    + destruct (IH s) as (s' & Hs' & Hd & Hkeep & Hset & Hunset).
      exists s'. repeat split; try assumption.
      * intros Hin. apply elem_of_cons in Hin as [Hin|Hin]; [discriminate | auto].
      * intros Hnin. apply Hunset. intros Hin. apply Hnin. right. exact Hin.
    + destruct (IH (fst (store.FailWhenMissingDir s)))
        as (s' & Hs' & Hd & Hkeep & Hset & Hunset).
      exists s'. repeat split; try assumption.
      * intros _. apply Hkeep. reflexivity.
      * intros _. apply Hkeep. reflexivity.
      * intros Hnin. exfalso. apply Hnin. left.
    + destruct (IH (fst (store.NoIntegrityCheck s)))
        as (s' & Hs' & Hd & Hkeep & Hset & Hunset).
      exists s'. repeat split; try assumption.
      * intros Hin. apply elem_of_cons in Hin as [Hin|Hin]; [|auto].
        injection Hin as Hin.
        apply (f_equal (fun f => store.failWhenMissingDir (fst (f s)))) in Hin.
        simpl in Hin. apply Hkeep. simpl. congruence.
      * intros Hnin. rewrite Hunset; [reflexivity|].
        intros Hin. apply Hnin. right. exact Hin.
Qed.








(** ** Package deebee: the file-integrity checker *)

Lemma deebee_applyOptions_app (a b : list (option deebee.Option)) (db : deebee.DB) :
  deebee.applyOptions (a ++ b) db =
    match deebee.applyOptions a db with
    | Err e => Err e
    | Ok db' => deebee.applyOptions b db'
    end.
Proof.
  revert db; induction a as [|[apply|] a IH]; intros db; simpl;
    [reflexivity | | apply IH].
  destruct (apply db) as [db' [err|]]; [reflexivity | apply IH].
Qed.

Lemma deebee_applyOptions_error (options : list (option deebee.Option))
    (db : deebee.DB) (e : deebee.error) :
  deebee.applyOptions options db = Err e ->
  exists e', e = deebee.ErrApplyingOptionFailed e'.
Proof.
  revert db; induction options as [|[apply|] rest IH]; intros db; simpl.
  - discriminate.
  - destruct (apply db) as [db' [err|]].
    + intros [= <-]. eauto.
    + apply IH.
  - apply IH.
Qed.

Lemma deebee_applyOptions_setsChecker (options : list (option deebee.Option))
    (db : deebee.DB) (e : deebee.error) :
  Forall deebee.setsChecker options ->
  deebee.applyOptions options db = Err e ->
  e = deebee.ErrApplyingOptionFailed deebee.ErrConfiguredTwice.
Proof.
  intros Hall; revert db; induction Hall as [|o rest Ho _ IH]; intros db; simpl.
  - discriminate.
  - destruct Ho as [->|[c ->]]; [apply IH|].
    unfold deebee.IntegrityChecker, deebee.setFileIntegrityChecker.
    destruct (deebee.fileIntegrityChecker db).
    + intros [= <-]. reflexivity.
    + apply IH.
Qed.

Lemma deebee_applyOptions_keeps (mid : list (option deebee.Option)) :
  Forall deebee.keeps_checker mid ->
  forall db db',
    is_Some (deebee.fileIntegrityChecker db) ->
    deebee.applyOptions mid db = Ok db' ->
    is_Some (deebee.fileIntegrityChecker db').
Proof.
  induction 1 as [|o rest Ho _ IH]; intros db db' Hset; simpl.
  - intros [= <-]. exact Hset.
  - destruct o as [apply|]; [|apply IH; exact Hset].
    specialize (Ho db Hset).
    destruct (apply db) as [db1 [err|]]; [discriminate|].
    apply IH. apply Ho. reflexivity.
Qed.

Lemma setsChecker_keeps (o : option deebee.Option) :
  deebee.setsChecker o -> deebee.keeps_checker o.
Proof.
  intros [->|[c ->]]; [exact I|].
  intros db [x Hx] _.
  unfold deebee.IntegrityChecker, deebee.setFileIntegrityChecker.
  rewrite Hx. simpl. rewrite Hx. eauto.
Qed.

Lemma IntegrityChecker_when_set (c : option deebee.FileIntegrityChecker)
    (rest : list (option deebee.Option)) (db : deebee.DB) :
  is_Some (deebee.fileIntegrityChecker db) ->
  deebee.applyOptions (Some (deebee.IntegrityChecker c) :: rest) db
  = Err (deebee.ErrApplyingOptionFailed deebee.ErrConfiguredTwice).
Proof.
  intros [x Hx]. simpl.
  unfold deebee.IntegrityChecker, deebee.setFileIntegrityChecker.
  rewrite Hx. reflexivity.
Qed.

Lemma second_setting_fails
    (pre mid post : list (option deebee.Option))
    (c1 : deebee.FileIntegrityChecker) (c2 : option deebee.FileIntegrityChecker)
    (db : deebee.DB) :
  Forall deebee.keeps_checker mid ->
  exists e,
    deebee.applyOptions
      (pre ++ [Some (deebee.IntegrityChecker (Some c1))] ++ mid
           ++ [Some (deebee.IntegrityChecker c2)] ++ post) db = Err e.
Proof.
  intros Hmid.
  rewrite deebee_applyOptions_app.
  destruct (deebee.applyOptions pre db) as [db1|e]; [|eauto].
  change ([Some (deebee.IntegrityChecker (Some c1))] ++ mid
            ++ [Some (deebee.IntegrityChecker c2)] ++ post)
    with (Some (deebee.IntegrityChecker (Some c1))
            :: mid ++ Some (deebee.IntegrityChecker c2) :: post).
  destruct (deebee.fileIntegrityChecker db1) as [x|] eqn:Hx.
  - rewrite IntegrityChecker_when_set by (rewrite Hx; eauto). eauto.
  - simpl. unfold deebee.IntegrityChecker at 1, deebee.setFileIntegrityChecker.
    rewrite Hx. rewrite deebee_applyOptions_app.
    destruct (deebee.applyOptions mid _) as [db2|e] eqn:Hmid2; [|eauto].
    rewrite IntegrityChecker_when_set; [eauto|].
    eapply deebee_applyOptions_keeps; [exact Hmid | | exact Hmid2].
    simpl. eauto.
Qed.

(** C7, as the code has it: when an option sets a checker that is not
    [nil], a later option sets the checker again, and no option in between
    takes away a checker that is set, [Open] fails and returns no handle.
    On a directory that exists the error is that of applying an option, and
    it is "configured twice" when the options do nothing but set
    checkers. *)
Theorem second_checker_is_rejected
    (ChecksumIntegrityChecker : deebee.Option) (d : option deebee.Dir)
    (pre mid post : list (option deebee.Option))
    (c1 : deebee.FileIntegrityChecker) (c2 : option deebee.FileIntegrityChecker) :
  Forall deebee.keeps_checker mid ->
  let options :=
    pre ++ [Some (deebee.IntegrityChecker (Some c1))] ++ mid
        ++ [Some (deebee.IntegrityChecker c2)] ++ post in
  exists e,
    deebee.Open ChecksumIntegrityChecker d options = Err e
    /\ (forall dd, d = Some dd -> deebee.Exists dd = Ok true ->
          (exists e', e = deebee.ErrApplyingOptionFailed e')
          /\ (Forall deebee.setsChecker options ->
              e = deebee.ErrApplyingOptionFailed deebee.ErrConfiguredTwice)).
Proof.
  intros Hmid options. unfold deebee.Open.
  destruct d as [dd|].
  2: { eexists. split; [reflexivity|]. discriminate. }
  destruct (deebee.Exists dd) as [[|]|err] eqn:Hex; simpl.
  - destruct (second_setting_fails pre mid post c1 c2
                {| deebee.dir := dd; deebee.fileIntegrityChecker := None |} Hmid)
      as [e He].
    fold options in He. rewrite He. exists e. split; [reflexivity|].
    intros dd' _ _. split.
    + eapply deebee_applyOptions_error. exact He.
    + intros Hall. eapply deebee_applyOptions_setsChecker; eassumption.
  - eexists. split; [reflexivity|].
    intros dd' [= <-] Hex'. rewrite Hex in Hex'. discriminate.
  - eexists. split; [reflexivity|].
    intros dd' [= <-] Hex'. rewrite Hex in Hex'. discriminate.
Qed.

Lemma second_checker_is_rejected_witness :
  deebee.Open example.defaultOption (Some example.existingDir)
    [Some (deebee.IntegrityChecker (Some example.checker)); None;
     Some (deebee.IntegrityChecker (Some example.checker))]
  = Err (deebee.ErrApplyingOptionFailed deebee.ErrConfiguredTwice).
Proof.
  destruct (second_checker_is_rejected example.defaultOption
              (Some example.existingDir)
              [] [None] [] example.checker (Some example.checker))
    as (e & He & Hkind).
  - constructor; [exact I | constructor].
  - transitivity (Err (A := deebee.DB) e); [exact He|]. f_equal.
    apply (Hkind example.existingDir eq_refl eq_refl).
    constructor; [right; eexists; reflexivity|].
    constructor; [left; reflexivity|].
    constructor; [right; eexists; reflexivity|]. constructor.
Defined.

(** The condition on the options in between is needed: after an option
    that empties the handle, the checker can be set again. *)
Lemma reset_allows_second_checker :
  ~ deebee.keeps_checker (Some deebee.reset)
  /\ deebee.Open example.defaultOption (Some example.existingDir)
       [Some (deebee.IntegrityChecker (Some example.checker));
        Some deebee.reset;
        Some (deebee.IntegrityChecker (Some example.checker))]
     = Ok {| deebee.dir := example.existingDir;
             deebee.fileIntegrityChecker := Some example.checker |}.
Proof.
  split; [|reflexivity].
  intros Hkeeps.
  destruct (Hkeeps {| deebee.dir := example.existingDir;
                      deebee.fileIntegrityChecker := Some example.checker |})
    as [x Hx]; [eauto | reflexivity | discriminate].
Qed.

(** C7, as the claim has it, fails: the first option sets a [nil] checker,
    the second sets a checker, and [Open] returns the handle. *)
Lemma nil_checker_can_be_set_again :
  deebee.sets_checker_twice
    [Some (deebee.IntegrityChecker None);
     Some (deebee.IntegrityChecker (Some example.checker))]
  /\ deebee.Open example.defaultOption (Some example.existingDir)
       [Some (deebee.IntegrityChecker None);
        Some (deebee.IntegrityChecker (Some example.checker))]
     = Ok {| deebee.dir := example.existingDir;
             deebee.fileIntegrityChecker := Some example.checker |}.
Proof.
  split.
  - exists [], None, [], (Some example.checker), []. reflexivity.
  - reflexivity.
Qed.

(** ** Package deebee: the name of the next version *)

Section NamingFacts.
Context {N : deebee.Names}.

Lemma youngestFilename_greatest (l : list deebee.filename) :
  l <> [] ->
  exists y,
    deebee.youngestFilename l = Some y
    /\ y ∈ l
    /\ forall g, g ∈ l -> deebee.version g <= deebee.version y.
Proof.
  induction l as [|f rest IH]; intros Hne; [contradiction|].
  simpl. destruct rest as [|f' rest'].
  - exists f. split; [reflexivity|]. split; [left|].
    intros g Hg. apply list_elem_of_singleton in Hg. subst g. lia.
  - destruct IH as (y & Hy & Hin & Hmax); [discriminate|].
    rewrite Hy.
    destruct (Z.ltb_spec (deebee.version f) (deebee.version y)) as [Hlt|Hge].
    + exists y. split; [reflexivity|]. split; [right; exact Hin|].
      intros g Hg. apply elem_of_cons in Hg as [->|Hg]; [lia | auto].
    + exists f. split; [reflexivity|]. split; [left|].
      intros g Hg. apply elem_of_cons in Hg as [->|Hg]; [lia|].
      specialize (Hmax g Hg). lia.
Qed.

Lemma filterDatafiles_elem (files : list string) (f : deebee.filename) :
  f ∈ deebee.filterDatafiles files <->
  deebee.name f ∈ files
  /\ deebee.parseFilename (deebee.name f) = Some (deebee.version f).
Proof.
  unfold deebee.filterDatafiles. rewrite list_elem_of_omap. split.
  - intros (entry & Hin & Hparse).
    destruct (deebee.parseFilename entry) as [v|] eqn:Hv; [|discriminate].
    injection Hparse as <-. simpl. split; assumption.
  - intros [Hin Hparse]. exists (deebee.name f). split; [exact Hin|].
    rewrite Hparse. destruct f; reflexivity.
Qed.

End NamingFacts.

(** The decimal names of the fixtures read back as the number they were
    written from. *)
Lemma decimal_names_round_trip (v : Z) :
  0 <= v ->
  example.parseFilename (example.generateFilename v) = Some v.
Proof.
  intros Hv. destruct v as [|p|p]; [reflexivity| |lia].
  unfold example.generateFilename, example.parseFilename. simpl Z.to_int.
  pose proof (DecimalPos.Unsigned.to_uint_nonnil p) as Hnil.
  pose proof (DecimalPos.Unsigned.of_to p) as Hof.
  destruct (Pos.to_uint p) as [|d|d|d|d|d|d|d|d|d|d] eqn:Hd; [contradiction|..];
    unfold NilZero.string_of_int, NilZero.string_of_uint;
    rewrite NilEmpty.usu; simpl String.eqb; cbv iota;
    unfold Z.of_uint; rewrite Hof; reflexivity.
Qed.

(** C6: the name of a new version is "0" when the directory holds no data
    file.  Otherwise it is the serialized successor of the latest version
    number, the greatest among the data files of the directory, where the
    successor is taken as Go's [int] takes it; it is the number plus one
    whenever the latest number is below the greatest [int]. *)
Theorem next_version_follows_latest
    (N : deebee.Names) (stateDir : deebee.Dir) (files : list string) :
  deebee.ListFiles stateDir = Ok files ->
  (deebee.filterDatafiles files = [] ->
   deebee.nextVersionFilename stateDir = Ok "0")
  /\ (forall f,
        f ∈ deebee.filterDatafiles files ->
        (forall g, g ∈ deebee.filterDatafiles files ->
                   deebee.version g <= deebee.version f) ->
        deebee.name f ∈ files
        /\ deebee.nextVersionFilename stateDir
           = Ok (deebee.generateFilename (add_i64 (deebee.version f) 1))
        /\ (min_int64 <= deebee.version f < max_int64 ->
            deebee.nextVersionFilename stateDir
            = Ok (deebee.generateFilename (deebee.version f + 1)))).
Proof.
  intros Hlist. unfold deebee.nextVersionFilename. rewrite Hlist. split.
  - intros ->. reflexivity.
  - intros f Hin Hmax.
    destruct (youngestFilename_greatest (deebee.filterDatafiles files))
      as (y & Hy & Hyin & Hymax).
    { intros Hnil. rewrite Hnil in Hin. inversion Hin. }
    rewrite Hy. cbv zeta.
    assert (deebee.version y = deebee.version f) as ->.
    { specialize (Hmax y Hyin). specialize (Hymax f Hin). lia. }
    split; [apply filterDatafiles_elem in Hin; tauto|].
    split; [reflexivity|].
    intros Hrange. unfold add_i64. rewrite wrap_i64_small; [reflexivity|].
    unfold min_int64, max_int64 in *. lia.
Qed.

Lemma next_version_follows_latest_witness :
  deebee.nextVersionFilename (N := example.names) example.existingDir = Ok "2"
  /\ deebee.nextVersionFilename (N := example.names)
       {| deebee.path := "db"; deebee.Exists := Ok true;
          deebee.ListFiles := Ok ["tmp"; "0.fnv128a"] |} = Ok "0".
Proof.
  split.
  - destruct (next_version_follows_latest example.names example.existingDir
                ["0"; "0.fnv128a"; "1"; "1.fnv128a"; "tmp"]) as [_ Hnext];
      [reflexivity|].
    destruct (Hnext {| deebee.name := "1"; deebee.version := 1 |})
      as (_ & _ & Hname).
    + vm_compute. right. left.
    + intros g Hg. vm_compute in Hg.
      apply elem_of_cons in Hg as [->|Hg]; [simpl; lia|].
      apply list_elem_of_singleton in Hg. subst g. simpl. lia.
    + apply Hname. split; evaluated.
  - destruct (next_version_follows_latest example.names
                {| deebee.path := "db"; deebee.Exists := Ok true;
                   deebee.ListFiles := Ok ["tmp"; "0.fnv128a"] |}
                ["tmp"; "0.fnv128a"]) as [Hfirst _];
      [reflexivity|].
    apply Hfirst. reflexivity.
Defined.

(** At the greatest [int] the successor wraps around: the name after
    9223372036854775807 is that of the least [int]. *)
Lemma next_version_wraps_around :
  deebee.nextVersionFilename (N := example.names)
    {| deebee.path := "db"; deebee.Exists := Ok true;
       deebee.ListFiles := Ok ["9223372036854775807"] |}
  = Ok "-9223372036854775808".
Proof. vm_compute. reflexivity. Qed.

(** ** Metrics *)

Section MetricsFacts.
Context {E : store.Env}.

Lemma metrics_le_refl (m : store.Metrics) : store.metrics_le m m.
Proof. unfold store.metrics_le, store.counters. repeat constructor; lia. Qed.

Lemma metrics_le_trans (a b c : store.Metrics) :
  store.metrics_le a b -> store.metrics_le b c -> store.metrics_le a c.
Proof.
  unfold store.metrics_le, store.counters. intros Hab Hbc.
  repeat match goal with
         | H : Forall2 _ (_ :: _) (_ :: _) |- _ =>
             apply Forall2_cons in H; destruct H
         end.
  repeat constructor; lia.
Qed.

(** What one [Read] does to the read metrics. *)
Lemma Read_metrics (fs : os.FS) (r : store.reader) (m : store.ReadMetrics)
    (n : nat) (elapsed : Z) :
  let res := store.Read fs r m n elapsed in
  let m' := snd (fst res) in
  let p := fst (snd res) in
  store.ReaderCalls m' = store.ReaderCalls m
  /\ store.TotalTime m' = add_i64 (store.TotalTime m) elapsed
  /\ (store.TotalBytesRead m' = store.TotalBytesRead m /\ p = []
      \/ store.TotalBytesRead m'
         = add_i64 (store.TotalBytesRead m) (Z.of_nat (length p)))
  /\ p = fst (snd (store.Read fs r m n 0)).
Proof.
  unfold store.Read.
  destruct (os.Read (store.file r) n) as [[f p] err] eqn:Hread.
  assert (Hp : err = Some os.EOF -> p = []).
  { unfold os.Read in Hread.
    destruct (os.closed (store.file r)); [congruence|].
    destruct (os.data (store.file r)); [|congruence].
    destruct n; [congruence|].
    destruct (take _ _); congruence. }
  destruct err as [[|e]|]; simpl;
    try (repeat split; try reflexivity; right; reflexivity).
  destruct (store.validateChecksum fs _); simpl.
  - repeat split; try reflexivity. left. split; [reflexivity | auto].
  - repeat split; try reflexivity. right. reflexivity.
Qed.

Lemma step_monotone (w : store.World) (op : store.Op) :
  store.in_range (store.metrics (store.w_store w)) ->
  store.fits w op ->
  store.metrics_le (store.metrics (store.w_store w))
                   (store.metrics (store.w_store (store.step w op)))
  /\ store.in_range (store.metrics (store.w_store (store.step w op))).
Proof.
  unfold store.in_range, store.metrics_le, store.counters.
  intros Hr Hfit.
  repeat match goal with
         | H : Forall _ (_ :: _) |- _ => apply Forall_cons in H; destruct H
         end.
  destruct op as [options|options|i n elapsed|i elapsed];
    unfold store.step, store.fits in *.
  - unfold store.Writer.
    destruct (store.openWriter _ _ _) as [[t fs'] res]. simpl.
    rewrite add_i64_exact by lia.
    split; repeat constructor; lia.
  - simpl. rewrite add_i64_exact by lia.
    split; repeat constructor; lia.
  - unfold store.delivered in Hfit.
    destruct (store.w_readers w !! i) as [r|];
      [|split; repeat constructor; lia].
    pose proof (Read_metrics (store.w_fs w) r
                  (store.Read_ (store.metrics (store.w_store w))) n elapsed)
      as Hm.
    destruct (store.Read (store.w_fs w) r _ n elapsed) as [[r' m'] [p err]].
    simpl in Hm. destruct Hm as (Hcalls & Htime & Hbytes & Hp).
    rewrite <- Hp in Hfit. destruct Hfit as (Hel & Ht & Hb).
    simpl. rewrite Hcalls, Htime, add_i64_exact by lia.
    destruct Hbytes as [[-> _]| ->].
    + split; repeat constructor; lia.
    + rewrite add_i64_exact by lia.
      split; repeat constructor; lia.
  - destruct (store.w_readers w !! i) as [r|];
      [|split; repeat constructor; lia].
    unfold store.Close.
    destruct (os.Close (store.file r)) as [f [err|]]; simpl;
      rewrite add_i64_exact by lia;
      split; repeat constructor; lia.
Qed.

Lemma run_monotone (ops : list store.Op) :
  forall w,
    store.in_range (store.metrics (store.w_store w)) ->
    store.all_fit w ops ->
    store.metrics_le (store.metrics (store.w_store w))
                     (store.metrics (store.w_store (store.run w ops)))
    /\ store.in_range (store.metrics (store.w_store (store.run w ops))).
Proof.
  induction ops as [|op rest IH]; intros w Hr Hfit.
  - split; [apply metrics_le_refl | exact Hr].
  - destruct Hfit as [Hop Hrest].
    destruct (step_monotone w op Hr Hop) as [Hle Hr'].
    destruct (IH (store.step w op) Hr' Hrest) as [Hle' Hr''].
    split; [|exact Hr''].
    eapply metrics_le_trans; [exact Hle | exact Hle'].
Qed.

Lemma all_fit_app (a b : list store.Op) :
  forall w, store.all_fit w (a ++ b) ->
            store.all_fit w a /\ store.all_fit (store.run w a) b.
Proof.
  induction a as [|op a IH]; intros w H.
  - split; [exact I | exact H].
  - destruct H as [Hop H]. destruct (IH _ H) as [Ha Hb].
    split; [split; assumption | exact Hb].
Qed.

End MetricsFacts.

(** C9: over a sequence of [Writer], [Reader], [Read] and [Close]
    operations on one store, in which the clock does not run backwards and
    no counter leaves the range of its type, no counter is ever below what
    it was at an earlier point of the sequence. *)
Theorem counters_never_decrease
    (E : store.Env) (w : store.World) (ops : list store.Op) (k : nat) :
  store.in_range (store.metrics (store.w_store w)) ->
  store.all_fit w ops ->
  store.metrics_le
    (store.Metrics_ (store.w_store (store.run w (take k ops))))
    (store.Metrics_ (store.w_store (store.run w ops))).
Proof.
  intros Hr Hfit. unfold store.Metrics_.
  rewrite <- (take_drop k ops) in Hfit.
  apply all_fit_app in Hfit as [Hhead Htail].
  destruct (run_monotone _ _ Hr Hhead) as [_ Hr'].
  destruct (run_monotone _ _ Hr' Htail) as [Hle _].
  rewrite <- (take_drop k ops) at 2.
  unfold store.run at 2. rewrite fold_left_app. exact Hle.
Qed.

Lemma counters_never_decrease_witness :
  store.metrics_le
    (store.Metrics_ (store.w_store (store.run example.world (take 2 example.session))))
    (store.Metrics_ (store.w_store (store.run example.world example.session))).
Proof.
  apply (counters_never_decrease example.env example.world example.session 2).
  - unfold store.in_range, store.counters.
    repeat constructor; evaluated.
  - cbv beta iota delta [store.all_fit store.fits example.session].
    repeat split; evaluated.
Defined.

(** * Further properties *)

(** ** Opening a store: files and options *)

Lemma store_applyOptions_app
    (a b : list (option store.Option)) (s : store.Store) :
  store.applyOptions (a ++ b) s =
    match store.applyOptions a s with
    | Err e => Err e
    | Ok s' => store.applyOptions b s'
    end.
Proof.
  revert s; induction a as [|[apply|] a IH]; intros s; simpl;
    [reflexivity | | apply IH].
  destruct (apply s) as [s' [err|]]; [reflexivity | apply IH].
Qed.

Lemma store_applyOptions_error {S : Type}
    (options : list (option (S -> S * option store.error))) (s : S) (e : store.error) :
  store.applyOptions options s = Err e -> exists e', e = store.ErrApplyingOption e'.
Proof.
  revert s; induction options as [|[apply|] rest IH]; intros s; simpl.
  - discriminate.
  - destruct (apply s) as [s' [err|]]; [intros [= <-]; eauto | apply IH].
  - apply IH.
Qed.



(** X2: [Open] never returns a store for the empty path or for a path that
    holds a regular file, whatever the options; when the options apply, the
    error for a regular file says the path is not a directory. *)
Theorem Open_rejects_bad_paths
    (fs : os.FS) (d : string) (options : list (option store.Option)) (c : bytes) :
  d = "" \/ fs !! d = Some (os.RegularFile c) ->
  (exists e, store.Open fs d options = (fs, Err e))
  /\ (d = "" -> store.Open fs d options = (fs, Err store.ErrDirIsEmpty))
  /\ (d <> "" -> Forall store.packageOption options ->
      store.Open fs d options = (fs, Err (store.ErrNotADirectory d))).
Proof.
  intros Hbad. split; [|split].
  - unfold store.Open. destruct (String.eqb_spec d "") as [->|Hne]; [eauto|].
    destruct Hbad as [Hd|Hd]; [contradiction|].
    destruct (store.applyOptions options _) as [s|e]; [|eauto].
    unfold os.Lstat. rewrite Hd. simpl. eauto.
  - intros ->. reflexivity.
  - intros Hne Hopts. destruct Hbad as [Hd|Hd]; [contradiction|].
    unfold store.Open. apply String.eqb_neq in Hne. rewrite Hne.
    match goal with
    | |- context [store.applyOptions options ?s0] =>
        destruct (applyOptions_package options Hopts s0) as (s & Hs & _)
    end.
    rewrite Hs. unfold os.Lstat. rewrite Hd. reflexivity.
Qed.

Lemma Open_rejects_bad_paths_witness :
  store.Open example.altered "/db/1" [Some store.NoIntegrityCheck]
  = (example.altered, Err (store.ErrNotADirectory "/db/1"))
  /\ store.Open example.altered "" [Some store.NoIntegrityCheck]
     = (example.altered, Err store.ErrDirIsEmpty).
Proof.
  split.
  - apply (Open_rejects_bad_paths example.altered "/db/1"
             [Some store.NoIntegrityCheck] (bytes_of_string "old")).
    + right. evaluated.
    + discriminate.
    + constructor; [right; right; reflexivity | constructor].
  - apply (Open_rejects_bad_paths example.altered ""
             [Some store.NoIntegrityCheck] []).
    + left. reflexivity.
    + reflexivity.
Defined.

(** X3: the first option that fails ends [Open]: the files are not looked
    at, nothing is created, and the options after it make no difference. *)
Theorem Open_stops_at_failing_option
    (fs : os.FS) (d : string) (pre post : list (option store.Option))
    (apply : store.Option) :
  (forall s, snd (apply s) <> None) ->
  d <> "" ->
  exists e,
    store.Open fs d (pre ++ Some apply :: post) = (fs, Err (store.ErrApplyingOption e))
    /\ forall fs' post',
         snd (store.Open fs' d (pre ++ Some apply :: post'))
         = Err (store.ErrApplyingOption e).
Proof.
  intros Hfails Hne. apply String.eqb_neq in Hne.
  unfold store.Open. rewrite Hne.
  assert (Hloop : exists e, forall post',
            store.applyOptions (pre ++ Some apply :: post')
              {| store.failWhenMissingDir := false;
                 store.areChecksumsEqual := store.defaultAreChecksumsEqual;
                 store.dir := d; store.lastVersionTime := 0;
                 store.metrics := store.zeroMetrics |}
            = Err (store.ErrApplyingOption e)).
  { match goal with |- context [store.applyOptions _ ?s0] => generalize s0 end.
    intros s0.
    destruct (store.applyOptions pre s0) as [s1|e] eqn:Hpre.
    - specialize (Hfails s1). destruct (apply s1) as [s2 [err|]] eqn:Happly;
        [|contradiction].
      exists err. intros post'. rewrite store_applyOptions_app, Hpre.
      simpl. rewrite Happly. reflexivity.
    - destruct (store_applyOptions_error _ _ _ Hpre) as [e' ->].
      exists e'. intros post'. rewrite store_applyOptions_app, Hpre. reflexivity. }
  destruct Hloop as [e He]. exists e. split.
  - rewrite He. reflexivity.
  - intros fs' post'. rewrite He. reflexivity.
Qed.

Lemma Open_stops_at_failing_option_witness :
  exists e,
    store.Open ∅ "/db" [Some store.NoIntegrityCheck;
                        Some (fun s => (s, Some (store.ErrOther "refused")));
                        Some store.FailWhenMissingDir]
    = (∅, Err (store.ErrApplyingOption e)).
Proof.
  destruct (Open_stops_at_failing_option ∅ "/db" [Some store.NoIntegrityCheck]
              [Some store.FailWhenMissingDir]
              (fun s => (s, Some (store.ErrOther "refused"))))
    as (e & He & _).
  - intros s. discriminate.
  - discriminate.
  - exists e. exact He.
Defined.

Lemma package_options_differ : store.FailWhenMissingDir <> store.NoIntegrityCheck.
Proof.
  intros Heq.
  apply (f_equal (fun f => store.failWhenMissingDir (fst (f example.opened)))) in Heq.
  discriminate.
Qed.

Lemma applyOptions_package_config (options : list (option store.Option)) :
  Forall store.packageOption options ->
  forall s, exists s',
    store.applyOptions options s = Ok s'
    /\ store.dir s' = store.dir s
    /\ store.metrics s' = store.metrics s
    /\ store.lastVersionTime s' = store.lastVersionTime s
    /\ (store.areChecksumsEqual s = (fun _ _ => true) ->
        store.areChecksumsEqual s' = (fun _ _ => true))
    /\ (Some store.NoIntegrityCheck ∈ options ->
        store.areChecksumsEqual s' = (fun _ _ => true))
    /\ (Some store.NoIntegrityCheck ∉ options ->
        store.areChecksumsEqual s' = store.areChecksumsEqual s).
Proof.
  induction 1 as [|o rest Ho _ IH]; intros s.
  - exists s. repeat split; try reflexivity; try tauto.
    intros Hin. inversion Hin.
  - destruct Ho as [->|[->| ->]]; simpl.
    + destruct (IH s) as (s' & Hs' & Hd & Hm & Ht & Hkeep & Hset & Hunset).
      exists s'. repeat split; try assumption.
      * intros Hin. apply elem_of_cons in Hin as [Hin|Hin]; [discriminate | auto].
      * intros Hnin. apply Hunset. intros Hin. apply Hnin. right. exact Hin.
    + destruct (IH (fst (store.FailWhenMissingDir s)))
        as (s' & Hs' & Hd & Hm & Ht & Hkeep & Hset & Hunset).
      exists s'. repeat split; try assumption.
      * intros Hin. apply elem_of_cons in Hin as [Hin|Hin]; [|auto].
        injection Hin as Hin. symmetry in Hin.
        destruct (package_options_differ Hin).
      * intros Hnin. rewrite Hunset; [reflexivity|].
        intros Hin. apply Hnin. right. exact Hin.
    + destruct (IH (fst (store.NoIntegrityCheck s)))
        as (s' & Hs' & Hd & Hm & Ht & Hkeep & Hset & Hunset).
      exists s'. repeat split; try assumption.
      * intros _. apply Hkeep. reflexivity.
      * intros _. apply Hkeep. reflexivity.
      * intros Hnin. exfalso. apply Hnin. left.
Qed.

(** X4: on a directory that exists, [Open] with the package's own options
    returns a store for that directory, with the files as they are and the
    metrics at zero.  Its [failWhenMissingDir] flag is set exactly when
    [FailWhenMissingDir] is among the options, and it holds the comparison
    that accepts everything exactly when [NoIntegrityCheck] is among them,
    the default comparison otherwise, in whatever order the options come. *)
Theorem Open_store_follows_options
    (fs : os.FS) (d : string) (options : list (option store.Option)) :
  d <> "" ->
  fs !! d = Some os.Directory ->
  Forall store.packageOption options ->
  exists s,
    store.Open fs d options = (fs, Ok s)
    /\ store.dir s = d
    /\ store.Metrics_ s = store.zeroMetrics
    /\ (Some store.FailWhenMissingDir ∈ options -> store.failWhenMissingDir s = true)
    /\ (Some store.FailWhenMissingDir ∉ options -> store.failWhenMissingDir s = false)
    /\ (Some store.NoIntegrityCheck ∈ options ->
        store.areChecksumsEqual s = (fun _ _ => true))
    /\ (Some store.NoIntegrityCheck ∉ options ->
        store.areChecksumsEqual s = store.defaultAreChecksumsEqual).
Proof.
  intros Hne Hd Hopts. apply String.eqb_neq in Hne.
  unfold store.Open. rewrite Hne.
  match goal with
  | |- context [store.applyOptions options ?s0] =>
      destruct (applyOptions_package_config options Hopts s0)
        as (s & Hs & Hdir & Hm & _ & _ & Hnic & Hdefault);
      destruct (applyOptions_package options Hopts s0)
        as (s' & Hs' & _ & _ & Hset & Hunset)
  end.
  rewrite Hs in Hs'. injection Hs' as <-.
  exists s. rewrite Hs. unfold os.Lstat. rewrite Hd. simpl.
  repeat split; assumption.
Qed.

Lemma Open_store_follows_options_witness :
  exists s,
    store.Open example.altered "/db"
      [Some store.NoIntegrityCheck; None; Some store.FailWhenMissingDir]
    = (example.altered, Ok s)
    /\ store.failWhenMissingDir s = true
    /\ store.areChecksumsEqual s = (fun _ _ => true).
Proof.
  destruct (Open_store_follows_options example.altered "/db"
              [Some store.NoIntegrityCheck; None; Some store.FailWhenMissingDir])
    as (s & Hs & _ & _ & Hset & _ & Hnic & _).
  - discriminate.
  - evaluated.
  - constructor; [right; right; reflexivity|].
    constructor; [left; reflexivity|].
    constructor; [right; left; reflexivity | constructor].
  - exists s. split; [exact Hs|]. split.
    + apply Hset. right. right. left.
    + apply Hnic. left.
Defined.

(** ** Readers: sidecars and selectors *)

(** X5: a reader whose sidecar file is missing cannot be read to the end or
    closed without an error, whatever comparison it holds: verification
    reports that the checksum cannot be read. *)
Theorem missing_sidecar_always_fails
    (E : store.Env) (fs : os.FS) (r : store.reader) :
  fs !! store.checksumFileForDataFile (os.Name (store.file r)) = None ->
  let failure := Some (store.ErrReadingChecksum os.ENOENT) in
  store.validateChecksum fs r = failure
  /\ (os.closed (store.file r) = false ->
      forall m elapsed, snd (store.Close fs r m elapsed) = failure)
  /\ (forall d n m elapsed,
        os.closed (store.file r) = false -> os.data (store.file r) = Some d ->
        (length d <= os.offset (store.file r))%nat -> (0 < n)%nat ->
        snd (store.Read fs r m n elapsed) = ([], failure)).
Proof.
  intros Hside failure.
  assert (Hv : store.validateChecksum fs r = failure).
  { unfold store.validateChecksum, store.readChecksum, os.ReadFile.
    rewrite Hside. reflexivity. }
  split; [exact Hv|]. split.
  - intros Hc m elapsed. unfold store.Close, os.Close. rewrite Hc. simpl.
    unfold store.validateChecksum, store.readChecksum in *. simpl. exact Hv.
  - intros d n m elapsed Hc Hd Hoff Hn.
    rewrite (Read_at_end fs r m n elapsed d) by assumption.
    rewrite Hv. reflexivity.
Qed.

Lemma missing_sidecar_always_fails_witness :
  snd (store.Close (delete "/db/2.fnv128a" example.intact) example.reader2_read
         (store.Read_ store.zeroMetrics) 0)
  = Some (store.ErrReadingChecksum os.ENOENT).
Proof.
  destruct (missing_sidecar_always_fails example.env
              (delete "/db/2.fnv128a" example.intact) example.reader2_read)
    as (_ & Hclose & _).
  - evaluated.
  - apply Hclose. reflexivity.
Defined.

(** X6: a reader that holds the comparison [NoIntegrityCheck] installs
    accepts every sidecar that can be read, whatever it contains: a [Read]
    at the end of the file gives the end-of-stream error and [Close] gives
    none. *)
Theorem NoIntegrityCheck_accepts_any_sidecar
    (E : store.Env) (fs : os.FS) (r : store.reader) (content : bytes) :
  store.r_areChecksumsEqual r = (fun _ _ => true) ->
  fs !! store.checksumFileForDataFile (os.Name (store.file r))
    = Some (os.RegularFile content) ->
  store.validateChecksum fs r = None
  /\ (os.closed (store.file r) = false ->
      forall m elapsed, snd (store.Close fs r m elapsed) = None)
  /\ (forall d n m elapsed,
        os.closed (store.file r) = false -> os.data (store.file r) = Some d ->
        (length d <= os.offset (store.file r))%nat -> (0 < n)%nat ->
        snd (store.Read fs r m n elapsed) = ([], Some store.ErrEOF)).
Proof.
  intros Heq Hside.
  assert (Hv : store.validateChecksum fs r = None).
  { unfold store.validateChecksum, store.readChecksum, os.ReadFile.
    rewrite Hside, Heq. reflexivity. }
  split; [exact Hv|]. split.
  - intros Hc m elapsed. unfold store.Close, os.Close. rewrite Hc. simpl.
    unfold store.validateChecksum, store.readChecksum in *. simpl. exact Hv.
  - intros d n m elapsed Hc Hd Hoff Hn.
    rewrite (Read_at_end fs r m n elapsed d) by assumption.
    rewrite Hv. reflexivity.
Qed.

Lemma NoIntegrityCheck_accepts_any_sidecar_witness :
  let r := @store.mkReader example.env (store.file example.reader2_read)
             example.v2 (store.checksum example.reader2_read) (fun _ _ => true) in
  store.validateChecksum example.corrupted r = None
  /\ snd (store.Close example.corrupted r (store.Read_ store.zeroMetrics) 0) = None.
Proof.
  intros r.
  destruct (NoIntegrityCheck_accepts_any_sidecar example.env example.corrupted r
              (x00 :: tl (example.digest (bytes_of_string "data"))))
    as (Hv & Hclose & _).
  - reflexivity.
  - evaluated.
  - split; [exact Hv | apply Hclose; reflexivity].
Defined.

Section SelectorFacts.
Context {E : store.Env}.

Lemma reader_applyOptions_app
    (a b : list (option store.ReaderOption)) (o : store.ReaderOptions) :
  store.applyOptions (a ++ b) o =
    match store.applyOptions a o with
    | Err e => Err e
    | Ok o' => store.applyOptions b o'
    end.
Proof.
  revert o; induction a as [|[apply|] a IH]; intros o; simpl;
    [reflexivity | | apply IH].
  destruct (apply o) as [o' [err|]]; [reflexivity | apply IH].
Qed.

(** Selector options always apply, and leave the selector they were given
    or one that [Time] installs. *)
Lemma selector_options_apply (options : list (option store.ReaderOption)) :
  Forall store.selectorOption options ->
  forall o, exists o',
    store.applyOptions options o = Ok o'
    /\ (o' = o \/ exists t, o' = {| store.chooseVersion := store.chooseByTime t |}).
Proof.
  induction 1 as [|x rest Hx _ IH]; intros o.
  - exists o. split; [reflexivity | left; reflexivity].
  - destruct Hx as [->|[t ->]]; simpl; [apply IH|].
    destruct (IH {| store.chooseVersion := store.chooseByTime t |})
      as (o' & Ho' & [->|Ht]).
    + exists {| store.chooseVersion := store.chooseByTime t |}.
      split; [exact Ho' | right; eauto].
    + exists o'. split; [exact Ho' | right; exact Ht].
Qed.

Lemma chooseLast_elem (vs : list store.Version) (v : store.Version) :
  store.chooseLast vs = Ok v -> v ∈ vs.
Proof.
  unfold store.chooseLast. destruct (last vs) as [x|] eqn:Hl; [|discriminate].
  intros [= <-]. apply last_Some in Hl as [l' ->].
  apply elem_of_app. right. left.
Qed.

Lemma chooseByTime_elem (t : store.time_Time) (vs : list store.Version)
    (v : store.Version) :
  store.chooseByTime t vs = Ok v -> v ∈ vs /\ store.Version_Time v = t.
Proof.
  induction vs as [|a rest IH]; simpl; [discriminate|].
  destruct (Z.eqb_spec (store.Version_Time a) t) as [Ha|Ha].
  - intros [= <-]. split; [left | exact Ha].
  - intros Hv. destruct (IH Hv) as [Hin Ht]. split; [right; exact Hin | exact Ht].
Qed.

End SelectorFacts.

(** X7: with the package's selector options, [Reader] on a store without
    versions fails with "no version found", whatever the selector; an
    error of the version listing comes back wrapped with the directory; and
    when no listed version has its data file, [Reader] returns no
    reader. *)
Theorem Reader_failures
    (E : store.Env) (s : store.Store) (fs : os.FS)
    (options : list (option store.ReaderOption)) :
  Forall store.selectorOption options ->
  (store.versions (store.dir s) fs = Ok [] ->
   snd (store.Reader s fs options) = Err (store.ErrVersionNotFound store.NoVersionFound))
  /\ (forall e, store.versions (store.dir s) fs = Err e ->
        snd (store.Reader s fs options) = Err (store.ErrReadingVersions (store.dir s) e))
  /\ (forall vs r, store.versions (store.dir s) fs = Ok vs ->
        (forall v, v ∈ vs ->
           fs !! store.dataFilename (store.dir s) (store.Version_Time v) = None) ->
        snd (store.Reader s fs options) <> Ok r).
Proof.
  intros Hopts. unfold store.Reader, store.openReader. simpl.
  destruct (selector_options_apply options Hopts
              {| store.chooseVersion := store.chooseLast |}) as (o & Ho & Hsel).
  rewrite Ho. split; [|split].
  - intros ->. reflexivity.
  - intros e ->. reflexivity.
  - intros vs r -> Hgone. destruct vs as [|a rest]; [discriminate|].
    cbn [length Nat.eqb].
    destruct (store.chooseVersion o (a :: rest)) as [v|e] eqn:Hch; [|discriminate].
    assert (Hin : v ∈ a :: rest).
    { destruct Hsel as [->|[t ->]]; cbn [store.chooseVersion] in Hch.
      - apply chooseLast_elem. exact Hch.
      - apply chooseByTime_elem in Hch as [Hin _]. exact Hin. }
    unfold os.Open. rewrite (Hgone v Hin). discriminate.
Qed.

Lemma Reader_failures_witness :
  snd (store.Reader (E := example.env) example.opened ∅ [Some (store.Time 2); None])
  <> Ok example.reader2.
Proof.
  destruct (Reader_failures example.env example.opened ∅ [Some (store.Time 2); None])
    as (_ & _ & Hgone).
  - constructor; [right; eexists; reflexivity|].
    constructor; [left; reflexivity | constructor].
  - apply (Hgone [example.v1; example.v2]); [reflexivity|].
    intros v _. apply lookup_empty.
Defined.

(** X8: the reader that [Reader] returns with the package's selector
    options is a fresh reader of a listed version: its file is the data
    file of that version, open at offset zero, its hash has been fed
    nothing, and it compares checksums as the store does. *)
Theorem Reader_returns_fresh_reader
    (E : store.Env) (s : store.Store) (fs : os.FS)
    (options : list (option store.ReaderOption)) (vs : list store.Version)
    (r : store.reader) :
  Forall store.selectorOption options ->
  store.versions (store.dir s) fs = Ok vs ->
  snd (store.Reader s fs options) = Ok r ->
  store.version r ∈ vs
  /\ os.Open fs (store.dataFilename (store.dir s) (store.Version_Time (store.version r)))
     = Ok (store.file r)
  /\ os.offset (store.file r) = 0%nat
  /\ os.closed (store.file r) = false
  /\ store.checksum r = checksum.hnew store.newHash
  /\ store.r_areChecksumsEqual r = store.areChecksumsEqual s.
Proof.
  intros Hopts Hvs. unfold store.Reader, store.openReader. simpl.
  destruct (selector_options_apply options Hopts
              {| store.chooseVersion := store.chooseLast |}) as (o & Ho & Hsel).
  rewrite Ho, Hvs. destruct vs as [|a rest]; [discriminate|].
  cbn [length Nat.eqb].
  destruct (store.chooseVersion o (a :: rest)) as [v|e] eqn:Hch; [|discriminate].
  assert (Hin : v ∈ a :: rest).
  { destruct Hsel as [->|[t ->]]; cbn [store.chooseVersion] in Hch.
    - apply chooseLast_elem. exact Hch.
    - apply chooseByTime_elem in Hch as [Hin _]. exact Hin. }
  destruct (os.Open fs _) as [f|e] eqn:Hopen; [|discriminate].
  intros [= <-]. simpl. split; [exact Hin|]. split; [exact Hopen|].
  unfold os.Open in Hopen.
  destruct (fs !! _) as [[c|]|]; try discriminate;
    injection Hopen as <-; repeat split.
Qed.

Lemma Reader_returns_fresh_reader_witness :
  store.version example.reader2 ∈ [example.v1; example.v2]
  /\ os.offset (store.file example.reader2) = 0%nat.
Proof.
  destruct (Reader_returns_fresh_reader example.env example.opened example.altered
              [None] [example.v1; example.v2] example.reader2)
    as (Hin & _ & Hoff & _).
  - constructor; [left; reflexivity | constructor].
  - reflexivity.
  - reflexivity.
  - split; assumption.
Defined.

(** X9: of several [Time] options the last one decides, and [nil] options
    count for nothing: [Reader] with selector options followed by [Time t]
    does what it does with [Time t] alone, and with [nil] options only what
    it does with none. *)
Theorem last_selector_decides
    (E : store.Env) (s : store.Store) (fs : os.FS)
    (options : list (option store.ReaderOption)) (t : store.time_Time) :
  Forall store.selectorOption options ->
  store.Reader s fs (options ++ [Some (store.Time t)])
  = store.Reader s fs [Some (store.Time t)]
  /\ (Forall (fun o => o = None) options ->
      store.Reader s fs options = store.Reader s fs []).
Proof.
  intros Hopts. split.
  - unfold store.Reader, store.openReader.
    rewrite reader_applyOptions_app.
    destruct (selector_options_apply options Hopts
                {| store.chooseVersion := store.chooseLast |}) as (o & Ho & _).
    rewrite Ho. reflexivity.
  - intros Hnil. unfold store.Reader, store.openReader.
    rewrite (applyOptions_nil options _ Hnil). reflexivity.
Qed.

Lemma last_selector_decides_witness :
  store.Reader (E := example.env) example.opened example.altered
    [Some (store.Time 1); None; Some (store.Time 2)]
  = store.Reader example.opened example.altered [Some (store.Time 2)].
Proof.
  apply (last_selector_decides example.env example.opened example.altered
           [Some (store.Time 1); None] 2).
  constructor; [right; eexists; reflexivity|].
  constructor; [left; reflexivity | constructor].
Defined.

(** ** Reading: what one [Read] does *)

Section ReadFacts.
Context {E : store.Env}.

(** The three ways [os.Read] ends on an open regular file. *)
Lemma os_Read_regular (f : os.File) (d : bytes) (n : nat) :
  os.closed f = false -> os.data f = Some d ->
  let chunk := take n (drop (os.offset f) d) in
  os.Read f n =
    if (n =? 0)%nat then (f, [], None)
    else if (length chunk =? 0)%nat then (f, [], Some os.EOF)
    else ({| os.Name := os.Name f; os.data := Some d;
             os.offset := (os.offset f + length chunk)%nat;
             os.closed := false |}, chunk, None).
Proof.
  intros Hc Hd chunk. unfold os.Read. rewrite Hc, Hd. fold chunk.
  destruct n; [reflexivity|]. simpl Nat.eqb. cbv iota.
  destruct chunk; reflexivity.
Qed.

Lemma wrap_i64_idem (x c : Z) : wrap_i64 (wrap_i64 x + c) = wrap_i64 (x + c).
Proof.
  unfold wrap_i64.
  replace ((x + 2 ^ 63) mod 2 ^ 64 - 2 ^ 63 + c + 2 ^ 63)
    with ((x + 2 ^ 63) mod 2 ^ 64 + c) by lia.
  rewrite Zplus_mod_idemp_l. f_equal. f_equal. lia.
Qed.

End ReadFacts.

(** X10: [Read] keeps the contract of [io.Reader]: it stores at most
    [len(p)] bytes; without an error it stores at least one byte unless the
    buffer is empty; and on a regular file the bytes are the next bytes of
    the file, after which the offset has moved by their number.  The
    reader stays on the same file and version. *)
Theorem Read_io_contract
    (E : store.Env) (fs : os.FS) (r : store.reader) (m : store.ReadMetrics)
    (n : nat) (elapsed : Z) :
  let r' := fst (fst (store.Read fs r m n elapsed)) in
  let p := fst (snd (store.Read fs r m n elapsed)) in
  let err := snd (snd (store.Read fs r m n elapsed)) in
  (length p <= n)%nat
  /\ (err = None -> n = 0%nat \/ p <> [])
  /\ os.Name (store.file r') = os.Name (store.file r)
  /\ os.data (store.file r') = os.data (store.file r)
  /\ store.version r' = store.version r
  /\ store.r_areChecksumsEqual r' = store.r_areChecksumsEqual r
  /\ (forall d, os.data (store.file r) = Some d ->
        p = take (length p) (drop (os.offset (store.file r)) d)
        /\ os.offset (store.file r') = (os.offset (store.file r) + length p)%nat).
Proof.
  unfold store.Read.
  destruct (os.closed (store.file r)) eqn:Hc.
  { unfold os.Read. rewrite Hc. simpl.
    repeat split; try reflexivity; try lia; try discriminate. }
  destruct (os.data (store.file r)) as [d|] eqn:Hd.
  2: { unfold os.Read. rewrite Hc, Hd. simpl.
       repeat split; try reflexivity; try lia; try discriminate; try assumption. }
  rewrite (os_Read_regular _ d n Hc Hd).
  destruct n as [|n]; simpl Nat.eqb; cbv iota.
  { simpl. rewrite ?Hd. repeat split; try reflexivity; try lia; auto.
    all: try (intros d' [= <-]); try reflexivity; try assumption; simpl; try lia. }
  destruct (take (S n) (drop (os.offset (store.file r)) d)) as [|b chunk] eqn:Hchunk.
  - simpl Nat.eqb. cbv iota.
    destruct (store.validateChecksum fs _); simpl; rewrite ?Hd;
      repeat split; try reflexivity; try lia; try discriminate;
      try (intros d' [= <-]); try reflexivity; try assumption; simpl; try lia.
  - simpl Nat.eqb. cbv iota. simpl.
    assert (Hlen : (length (b :: chunk) <= S n)%nat).
    { rewrite <- Hchunk, length_take. lia. }
    repeat split; try reflexivity; try (simpl in Hlen; lia).
    + intros _. right. discriminate.
    + match goal with H : Some _ = Some _ |- _ => injection H as <- end.
      change (S (length chunk)) with (length (b :: chunk)).
      rewrite <- Hchunk, length_take.
      destruct (Nat.le_gt_cases (S n) (length (drop (os.offset (store.file r)) d)))
        as [Hle|Hgt].
      * rewrite Nat.min_l by exact Hle. reflexivity.
      * rewrite Nat.min_r by lia. rewrite !take_ge by lia. reflexivity.
Qed.

(** ** Readers: the hash follows the bytes delivered *)

Section TrackedFacts.
Context {E : store.Env}.
Hypothesis Hstream : checksum.streaming store.newHash.

Lemma take_add_drop {A} (l : list A) (i j : nat) :
  take (i + j) l = take i l ++ take j (drop i l).
Proof.
  revert l; induction i as [|i IH]; intros l; [reflexivity|].
  destruct l as [|x l]; simpl; [rewrite take_nil; reflexivity|].
  rewrite IH. reflexivity.
Qed.

Lemma take_length_take {A} (k : nat) (l : list A) :
  take (length (take k l)) l = take k l.
Proof.
  rewrite length_take.
  destruct (Nat.le_gt_cases k (length l)) as [Hle|Hgt].
  - rewrite Nat.min_l by exact Hle. reflexivity.
  - rewrite Nat.min_r by lia. rewrite !take_ge by lia. reflexivity.
Qed.

Lemma Read_tracked (fs : os.FS) (r : store.reader) (m : store.ReadMetrics)
    (n : nat) (elapsed : Z) :
  store.tracked r -> store.tracked (fst (fst (store.Read fs r m n elapsed))).
Proof.
  destruct Hstream as [Hnil Happ].
  unfold store.tracked, store.Read. intros Ht.
  destruct (os.closed (store.file r)) eqn:Hc.
  { unfold os.Read. rewrite Hc. simpl.
    destruct (os.data (store.file r)); [|exact I]. rewrite Hnil. exact Ht. }
  destruct (os.data (store.file r)) as [d|] eqn:Hd.
  2: { unfold os.Read. rewrite Hc, Hd. simpl. rewrite Hd. exact I. }
  rewrite (os_Read_regular _ d n Hc Hd).
  destruct n as [|n]; simpl Nat.eqb; cbv iota.
  { simpl. rewrite Hd, Hnil. exact Ht. }
  destruct (take (S n) (drop (os.offset (store.file r)) d)) as [|b chunk] eqn:Hchunk.
  - simpl Nat.eqb. cbv iota.
    destruct (store.validateChecksum fs _); simpl; rewrite Hd, ?Hnil; exact Ht.
  - simpl Nat.eqb. cbv iota. simpl. rewrite Ht, Happ. f_equal.
    change (S (length chunk)) with (length (b :: chunk)).
    rewrite take_add_drop. f_equal.
    rewrite <- Hchunk. symmetry. apply take_length_take.
Qed.

Lemma Close_tracked (fs : os.FS) (r : store.reader) (m : store.ReadMetrics)
    (elapsed : Z) :
  store.tracked r -> store.tracked (fst (fst (store.Close fs r m elapsed))).
Proof.
  unfold store.tracked, store.Close, os.Close. intros Ht.
  destruct (os.closed (store.file r)); simpl; exact Ht.
Qed.

Lemma Reader_tracked (s : store.Store) (fs : os.FS)
    (options : list (option store.ReaderOption)) (r : store.reader) :
  snd (store.Reader s fs options) = Ok r -> store.tracked r.
Proof.
  destruct Hstream as [Hnil _].
  unfold store.Reader, store.openReader. simpl.
  destruct (store.applyOptions options _) as [o|e]; [|discriminate].
  destruct (store.versions _ _) as [vs|e]; [|discriminate].
  destruct (length vs =? 0)%nat; [discriminate|].
  destruct (store.chooseVersion o vs) as [v|e]; [|discriminate].
  unfold os.Open.
  destruct (fs !! _) as [[c|]|]; try discriminate; intros [= <-];
    unfold store.tracked; simpl; [|exact I].
  rewrite Hnil. reflexivity.
Qed.

Lemma step_tracked (w : store.World) (op : store.Op) :
  Forall store.tracked (store.w_readers w) ->
  Forall store.tracked (store.w_readers (store.step w op)).
Proof.
  intros Hall. destruct op as [options|options|i n elapsed|i elapsed];
    unfold store.step.
  - destruct (store.Writer _ _ _) as [[s fs] res]. exact Hall.
  - destruct (store.Reader _ _ _) as [s res] eqn:HR. simpl.
    destruct res as [r|e]; [|exact Hall].
    apply Forall_app. split; [exact Hall|].
    constructor; [|constructor].
    eapply Reader_tracked. rewrite HR. reflexivity.
  - destruct (store.w_readers w !! i) as [r|] eqn:Hi; [|exact Hall].
    pose proof (Read_tracked (store.w_fs w) r
                  (store.Read_ (store.metrics (store.w_store w))) n elapsed) as Hr.
    destruct (store.Read _ _ _ _ _) as [[r' m'] res]. simpl.
    apply Forall_insert; [exact Hall|]. apply Hr.
    eapply Forall_lookup_1; eassumption.
  - destruct (store.w_readers w !! i) as [r|] eqn:Hi; [|exact Hall].
    pose proof (Close_tracked (store.w_fs w) r
                  (store.Read_ (store.metrics (store.w_store w))) elapsed) as Hr.
    destruct (store.Close _ _ _ _) as [[r' m'] res]. simpl.
    apply Forall_insert; [exact Hall|]. apply Hr.
    eapply Forall_lookup_1; eassumption.
Qed.

End TrackedFacts.

(** X11: whatever a caller does with a store, each reader of a regular
    file keeps a hash that has been fed exactly the bytes of the file
    before its read offset: the readers [Reader] hands out start so, and
    [Read] and [Close] keep it so. *)
Theorem hash_follows_delivered_bytes
    (E : store.Env) (w : store.World) (ops : list store.Op) :
  checksum.streaming store.newHash ->
  Forall store.tracked (store.w_readers w) ->
  Forall store.tracked (store.w_readers (store.run w ops)).
Proof.
  intros Hstream. revert w. induction ops as [|op rest IH]; intros w Hall.
  - exact Hall.
  - apply IH. apply step_tracked; assumption.
Qed.

Lemma hash_follows_delivered_bytes_witness :
  Forall store.tracked (store.w_readers (store.run example.world example.session)).
Proof.
  apply (hash_follows_delivered_bytes example.env example.world example.session).
  - exact fnv128a_streaming.
  - constructor.
Defined.

(** ** Reading a version to its end *)

Section DrainResult.
Context {E : store.Env}.
Hypothesis Hstream : checksum.streaming store.newHash.

Lemma wrap_i64_wrap (x : Z) : wrap_i64 (wrap_i64 x) = wrap_i64 x.
Proof.
  pose proof (wrap_i64_idem x 0) as H. rewrite !Z.add_0_r in H. exact H.
Qed.

(** [drain], with the reader and the byte counter it ends with. *)
Lemma drain_result (fuel : nat) :
  forall (fs : os.FS) (r : store.reader) (m : store.ReadMetrics) (n : nat)
         (acc d expected : bytes),
    os.closed (store.file r) = false ->
    os.data (store.file r) = Some d ->
    (0 < n)%nat ->
    (length d - os.offset (store.file r) < fuel)%nat ->
    store.readChecksum fs r = Ok expected ->
    let rest := drop (os.offset (store.file r)) d in
    let digest :=
      checksum.hSum store.newHash
        (checksum.hWrite store.newHash (store.checksum r) rest) [] in
    exists r' m',
      store.drain fuel fs r m n acc =
        Some (r', m',
              (acc ++ rest,
               if store.r_areChecksumsEqual r expected digest
               then store.ErrEOF
               else store.ErrInvalidChecksum (os.Name (store.file r))))
      /\ os.Name (store.file r') = os.Name (store.file r)
      /\ os.closed (store.file r') = false
      /\ store.checksum r' = checksum.hWrite store.newHash (store.checksum r) rest
      /\ store.r_areChecksumsEqual r' = store.r_areChecksumsEqual r
      /\ store.ReaderCalls m' = store.ReaderCalls m
      /\ (wrap_i64 (store.TotalBytesRead m) = store.TotalBytesRead m ->
          store.TotalBytesRead m'
          = wrap_i64 (store.TotalBytesRead m + Z.of_nat (length rest))).
Proof.
  destruct Hstream as [Hnil Happ].
  induction fuel as [|fuel IH];
    intros fs r m n acc d expected Hc Hd Hn Hfuel Hside; [lia|].
  destruct n as [|n]; [lia|].
  cbn zeta. simpl store.drain. unfold store.Read.
  rewrite (os_Read_regular _ d (S n) Hc Hd). simpl Nat.eqb. cbv iota.
  destruct (take (S n) (drop (os.offset (store.file r)) d)) as [|b chunk] eqn:Hchunk.
  - apply take_S_nil in Hchunk. rewrite Hchunk. rewrite !Hnil. rewrite app_nil_r.
    simpl Nat.eqb. cbv iota. rewrite reader_eta.
    unfold store.validateChecksum. rewrite Hside.
    destruct (store.r_areChecksumsEqual r expected _); simpl; rewrite ?app_nil_r;
      eexists; eexists; (split; [reflexivity|]); simpl;
      rewrite ?Hnil, ?Z.add_0_r; unfold add_i64; rewrite ?Z.add_0_r;
      repeat split; try assumption; intros Hm; rewrite ?Hm; reflexivity.
  - assert (Hrest : drop (os.offset (store.file r)) d
                    = (b :: chunk) ++ drop (os.offset (store.file r) + length (b :: chunk)) d).
    { rewrite <- Hchunk, <- drop_drop. symmetry. apply take_drop_length. }
    simpl Nat.eqb. cbv iota. simpl.
    match goal with
    | |- context [store.drain fuel fs ?r1 ?m1 _ _] =>
        destruct (IH fs r1 m1 (S n) (acc ++ b :: chunk) d expected)
          as (r' & m' & Hdr & Hname & Hclosed & Hsum & Hcmp & Hcalls & Hbytes)
    end; simpl; try assumption; try reflexivity; try lia.
    + assert (Hlen : (length (b :: chunk) <= length d - os.offset (store.file r))%nat)
        by (rewrite <- Hchunk, length_take, length_drop; lia).
      simpl in Hlen. lia.
    + rewrite Hdr. exists r', m'.
      simpl in Hname, Hclosed, Hsum, Hcmp, Hcalls, Hbytes. simpl.
      change (S (length chunk)) with (length (b :: chunk)) in *.
      rewrite Happ in *. rewrite <- Hrest in *.
      rewrite <- app_assoc, <- Hrest.
      split; [reflexivity|]. repeat split; try assumption.
      intros _. rewrite Hbytes by (unfold add_i64; apply wrap_i64_wrap).
      unfold add_i64. rewrite wrap_i64_idem. f_equal.
      apply (f_equal length) in Hrest. rewrite length_app in Hrest. lia.
Qed.

Lemma default_comparison_refl (b : bytes) :
  store.defaultAreChecksumsEqual b b = true.
Proof.
  unfold store.defaultAreChecksumsEqual.
  replace (bytes_Equal b b) with true by (symmetry; apply bytes_Equal_eq; reflexivity).
  reflexivity.
Qed.

End DrainResult.


(** X12: a fresh reader whose sidecar holds the digest of the data file
    reads the whole file back, with every buffer size, ends with the
    end-of-stream error, and closes without an error. *)
Theorem intact_version_reads_back
    (E : store.Env) (fs : os.FS) (r : store.reader) (m : store.ReadMetrics)
    (n fuel : nat) (d : bytes) (elapsed : Z) :
  checksum.streaming store.newHash ->
  store.r_areChecksumsEqual r = store.defaultAreChecksumsEqual ->
  os.closed (store.file r) = false ->
  os.data (store.file r) = Some d ->
  os.offset (store.file r) = 0%nat ->
  store.checksum r = checksum.hnew store.newHash ->
  store.readChecksum fs r
  = Ok (checksum.hSum store.newHash
          (checksum.hWrite store.newHash (checksum.hnew store.newHash) d) []) ->
  (0 < n)%nat ->
  (length d < fuel)%nat ->
  exists r' m',
    store.drain fuel fs r m n [] = Some (r', m', (d, store.ErrEOF))
    /\ snd (store.Close fs r' m' elapsed) = None.
Proof.
  intros Hstream Hcmp Hc Hd Hoff Hsum Hside Hn Hfuel.
  destruct (drain_result Hstream fuel fs r m n [] d
              (checksum.hSum store.newHash
                 (checksum.hWrite store.newHash (checksum.hnew store.newHash) d) [])
              Hc Hd Hn)
    as (r' & m' & Hdr & Hname & Hclosed & Hsum' & Hcmp' & _);
    [rewrite Hoff; lia | exact Hside |].
  rewrite Hoff, Hsum, Hcmp in Hdr. simpl drop in Hdr.
  rewrite default_comparison_refl in Hdr. simpl in Hdr.
  exists r', m'. split; [exact Hdr|].
  unfold store.Close, os.Close. rewrite Hclosed. simpl.
  unfold store.validateChecksum, store.readChecksum in *. simpl.
  rewrite Hname, Hside, Hcmp', Hcmp, Hsum', Hoff, Hsum. simpl drop.
  rewrite default_comparison_refl. reflexivity.
Qed.

Lemma intact_version_reads_back_witness :
  exists r' m',
    store.drain 5 example.intact example.reader2 (store.Read_ store.zeroMetrics) 3 []
    = Some (r', m', (bytes_of_string "data", store.ErrEOF))
    /\ snd (store.Close example.intact r' m' 0) = None.
Proof.
  apply (intact_version_reads_back example.env example.intact example.reader2
           (store.Read_ store.zeroMetrics) 3 5 (bytes_of_string "data") 0).
  - exact fnv128a_streaming.
  - reflexivity.
  - reflexivity.
  - reflexivity.
  - reflexivity.
  - reflexivity.
  - evaluated.
  - lia.
  - simpl. lia.
Defined.

(** X13: reading a version to its end adds to the counter of bytes read
    exactly the number of bytes that were left in the file (with the
    wrap-around of [int]), whether verification succeeds or fails, and
    leaves the counter of [Reader] calls as it was. *)
Theorem drained_bytes_are_counted
    (E : store.Env) (fs : os.FS) (r : store.reader) (m : store.ReadMetrics)
    (n fuel : nat) (acc d expected : bytes) :
  checksum.streaming store.newHash ->
  os.closed (store.file r) = false ->
  os.data (store.file r) = Some d ->
  (0 < n)%nat ->
  (length d - os.offset (store.file r) < fuel)%nat ->
  store.readChecksum fs r = Ok expected ->
  min_int64 <= store.TotalBytesRead m <= max_int64 ->
  exists r' m' p e,
    store.drain fuel fs r m n acc = Some (r', m', (p, e))
    /\ store.ReaderCalls m' = store.ReaderCalls m
    /\ store.TotalBytesRead m'
       = wrap_i64 (store.TotalBytesRead m
                   + Z.of_nat (length d - os.offset (store.file r))).
Proof.
  intros Hstream Hc Hd Hn Hfuel Hside Hm.
  destruct (drain_result Hstream fuel fs r m n acc d expected Hc Hd Hn Hfuel Hside)
    as (r' & m' & Hdr & _ & _ & _ & _ & Hcalls & Hbytes).
  exists r', m'. eexists. eexists. split; [exact Hdr|]. split; [exact Hcalls|].
  rewrite Hbytes by (apply wrap_i64_small; exact Hm).
  rewrite length_drop. reflexivity.
Qed.

Lemma drained_bytes_are_counted_witness :
  exists r' m' p e,
    store.drain 5 example.corrupted example.reader2
      {| store.ReaderCalls := 1; store.TotalBytesRead := max_int64 - 1;
         store.TotalTime := 0 |} 3 []
    = Some (r', m', (p, e))
    /\ store.ReaderCalls m' = 1
    /\ store.TotalBytesRead m' = wrap_i64 (max_int64 - 1 + 4).
Proof.
  apply (drained_bytes_are_counted example.env example.corrupted example.reader2
           {| store.ReaderCalls := 1; store.TotalBytesRead := max_int64 - 1;
              store.TotalTime := 0 |} 3 5 []
           (bytes_of_string "data")
           (x00 :: tl (example.digest (bytes_of_string "data")))).
  - exact fnv128a_streaming.
  - reflexivity.
  - reflexivity.
  - lia.
  - simpl. lia.
  - evaluated.
  - split; evaluated.
Defined.

(** X14: once [Close] was called, the reader is closed for good: a further
    [Read] stores nothing and returns the closed-file error in place of
    the end of the stream, without verifying anything, and a further
    [Close] returns the closing error. *)
Theorem closed_reader_stays_closed
    (E : store.Env) (fs : os.FS) (r : store.reader) (m m1 : store.ReadMetrics)
    (n : nat) (elapsed e1 : Z) :
  let closed := fst (fst (store.Close fs r m elapsed)) in
  os.closed (store.file closed) = true
  /\ snd (store.Read fs closed m1 n e1) = ([], Some (store.ErrRead os.ErrClosed))
  /\ snd (store.Close fs closed m1 e1) = Some (store.ErrClosingFile os.ErrClosed)
  /\ fst (fst (store.Close fs closed m1 e1)) = closed.
Proof.
  intros closed.
  assert (Hcl : os.closed (store.file closed) = true).
  { unfold closed, store.Close, os.Close.
    destruct (os.closed (store.file r)) eqn:Hc; simpl; [exact Hc | reflexivity]. }
  split; [exact Hcl|]. clearbody closed.
  unfold store.Read, store.Close, os.Read, os.Close. rewrite Hcl. simpl.
  repeat split; reflexivity.
Qed.

(** ** Deleting a version: both files, or nothing *)

Section DeleteFacts.
Context {E : store.Env}.

Lemma removeFiles_frame (t : store.time_Time) (files : list string) :
  forall (fs : os.FS) (p : string),
    fst (store.removeFiles fs t files) !! p = fs !! p
    \/ fst (store.removeFiles fs t files) !! p = None /\ p ∈ files.
Proof.
  induction files as [|f rest IH]; intros fs p; simpl; [left; reflexivity|].
  unfold os.Remove. destruct (fs !! f) as [[c|]|] eqn:Hf; simpl;
    try (left; reflexivity);
    [|destruct (os.isEmpty fs f); simpl; [|left; reflexivity]].
  all: destruct (IH (delete f fs) p) as [Hsame|[Hnone Hin]].
  all: try (right; split; [exact Hnone | right; exact Hin]).
  all: rewrite Hsame; destruct (decide (f = p)) as [->|Hne];
    [right; split; [apply lookup_delete_eq | left]
    |left; apply lookup_delete_ne; exact Hne].
Qed.

End DeleteFacts.

(** X15: when the data file and the sidecar of a version are both there
    (under different names), [DeleteVersion] removes the two and returns no
    error; deleting the same version again is a version-not-found error
    that changes nothing. *)
Theorem DeleteVersion_removes_both
    (E : store.Env) (s : store.Store) (fs : os.FS) (t : store.time_Time)
    (content sidecar : bytes) :
  let dataFile := store.dataFilename (store.dir s) t in
  let checksumFile := store.checksumFileForDataFile dataFile in
  dataFile <> checksumFile ->
  fs !! dataFile = Some (os.RegularFile content) ->
  fs !! checksumFile = Some (os.RegularFile sidecar) ->
  let fs' := delete checksumFile (delete dataFile fs) in
  store.DeleteVersion s fs t = (fs', None)
  /\ fs' !! dataFile = None
  /\ fs' !! checksumFile = None
  /\ store.DeleteVersion s fs' t
     = (fs', Some (store.ErrVersionNotFound (store.TimeDoesNotExist t))).
Proof.
  intros dataFile checksumFile Hne Hdata Hsum fs'.
  assert (Hgone : fs' !! dataFile = None).
  { unfold fs'. rewrite lookup_delete_ne by congruence. apply lookup_delete_eq. }
  split; [|split; [exact Hgone | split; [apply lookup_delete_eq|]]].
  - unfold store.DeleteVersion. fold dataFile. fold checksumFile. simpl.
    unfold os.Remove at 1. rewrite Hdata.
    unfold os.Remove. rewrite lookup_delete_ne by exact Hne.
    rewrite Hsum. reflexivity.
  - unfold store.DeleteVersion. fold dataFile. simpl.
    unfold os.Remove. rewrite Hgone. reflexivity.
Qed.

Lemma DeleteVersion_removes_both_witness :
  store.DeleteVersion (E := example.env) example.opened example.intact 2
  = (delete "/db/2.fnv128a" (delete "/db/2" example.intact), None).
Proof.
  apply (DeleteVersion_removes_both example.env example.opened example.intact 2
           (bytes_of_string "data") (example.digest (bytes_of_string "data"))).
  - evaluated.
  - evaluated.
  - evaluated.
Defined.



(** X17: [DeleteVersion] never adds a file and never touches a path other
    than the data file and the sidecar of the version it is given, however
    it ends. *)
Theorem DeleteVersion_touches_only_its_files
    (E : store.Env) (s : store.Store) (fs : os.FS) (t : store.time_Time)
    (p : string) :
  let dataFile := store.dataFilename (store.dir s) t in
  let checksumFile := store.checksumFileForDataFile dataFile in
  fst (store.DeleteVersion s fs t) !! p = fs !! p
  \/ fst (store.DeleteVersion s fs t) !! p = None
     /\ (p = dataFile \/ p = checksumFile).
Proof.
  intros dataFile checksumFile. unfold store.DeleteVersion.
  fold dataFile. fold checksumFile.
  destruct (removeFiles_frame t [dataFile; checksumFile] fs p)
    as [Hsame|[Hnone Hin]]; [left; exact Hsame | right].
  split; [exact Hnone|].
  apply elem_of_cons in Hin as [->|Hin]; [left; reflexivity|].
  apply list_elem_of_singleton in Hin. right. exact Hin.
Qed.

(** ** A store in use: what the operations leave alone *)

Section SessionFacts.
Context {E : store.Env}.

Lemma step_counts_calls (w : store.World) (op : store.Op) :
  store.in_range (store.metrics (store.w_store w)) ->
  store.fits w op ->
  store.WriterCalls (store.Write_ (store.metrics (store.w_store (store.step w op))))
  = store.WriterCalls (store.Write_ (store.metrics (store.w_store w)))
    + (if store.isOpWriter op then 1 else 0)
  /\ store.ReaderCalls (store.Read_ (store.metrics (store.w_store (store.step w op))))
     = store.ReaderCalls (store.Read_ (store.metrics (store.w_store w)))
       + (if store.isOpReader op then 1 else 0).
Proof.
  unfold store.in_range, store.counters. intros Hr Hfit.
  repeat match goal with
         | H : Forall _ (_ :: _) |- _ => apply Forall_cons in H; destruct H
         end.
  destruct op as [options|options|i n elapsed|i elapsed];
    unfold store.step, store.fits in *; simpl store.isOpWriter;
    simpl store.isOpReader; cbv iota.
  - unfold store.Writer.
    destruct (store.openWriter _ _ _) as [[t fs'] res]. simpl.
    rewrite add_i64_exact by lia. lia.
  - simpl. rewrite add_i64_exact by lia. lia.
  - destruct (store.w_readers w !! i) as [r|]; [|lia].
    pose proof (Read_metrics (store.w_fs w) r
                  (store.Read_ (store.metrics (store.w_store w))) n elapsed) as Hm.
    destruct (store.Read (store.w_fs w) r _ n elapsed) as [[r' m'] [p err]].
    simpl in Hm. destruct Hm as (Hcalls & _). simpl. rewrite Hcalls. lia.
  - destruct (store.w_readers w !! i) as [r|]; [|lia].
    unfold store.Close.
    destruct (os.Close (store.file r)) as [f [err|]]; simpl; lia.
Qed.

Lemma run_counts_calls (ops : list store.Op) :
  forall w,
    store.in_range (store.metrics (store.w_store w)) ->
    store.all_fit w ops ->
    store.WriterCalls (store.Write_ (store.metrics (store.w_store (store.run w ops))))
    = store.WriterCalls (store.Write_ (store.metrics (store.w_store w)))
      + store.calls store.isOpWriter ops
    /\ store.ReaderCalls (store.Read_ (store.metrics (store.w_store (store.run w ops))))
       = store.ReaderCalls (store.Read_ (store.metrics (store.w_store w)))
         + store.calls store.isOpReader ops.
Proof.
  induction ops as [|op rest IH]; intros w Hr Hfit.
  - simpl. lia.
  - destruct Hfit as [Hop Hrest].
    destruct (step_monotone w op Hr Hop) as [_ Hr'].
    destruct (step_counts_calls w op Hr Hop) as [Hw Hrd].
    destruct (IH (store.step w op) Hr' Hrest) as [Hw' Hrd'].
    simpl store.run. simpl store.calls. unfold store.run in *.
    rewrite Hw', Hrd', Hw, Hrd. lia.
Qed.


End SessionFacts.

(** X18: the call counters are exact: over a sequence of operations in
    which no counter leaves the range of its type, the counter of [Writer]
    calls grows by the number of [Writer] operations and the counter of
    [Reader] calls by the number of [Reader] operations, whether the calls
    succeed or fail. *)
Theorem call_counters_are_exact
    (E : store.Env) (w : store.World) (ops : list store.Op) :
  store.in_range (store.metrics (store.w_store w)) ->
  store.all_fit w ops ->
  let before := store.Metrics_ (store.w_store w) in
  let after := store.Metrics_ (store.w_store (store.run w ops)) in
  store.WriterCalls (store.Write_ after)
  = store.WriterCalls (store.Write_ before) + store.calls store.isOpWriter ops
  /\ store.ReaderCalls (store.Read_ after)
     = store.ReaderCalls (store.Read_ before) + store.calls store.isOpReader ops.
Proof.
  intros Hr Hfit. apply run_counts_calls; assumption.
Qed.

Lemma call_counters_are_exact_witness :
  let after := store.Metrics_ (store.w_store (store.run example.world example.session)) in
  store.WriterCalls (store.Write_ after) = 0 + 1
  /\ store.ReaderCalls (store.Read_ after) = 0 + 1.
Proof.
  apply (call_counters_are_exact example.env example.world example.session).
  - unfold store.in_range, store.counters.
    repeat constructor; evaluated.
  - cbv beta iota delta [store.all_fit store.fits example.session].
    repeat split; evaluated.
Defined.



(** ** Package deebee: what [Open] returns *)

Lemma deebee_applyOptions_nil (options : list (option deebee.Option)) (db : deebee.DB) :
  Forall (fun o => o = None) options -> deebee.applyOptions options db = Ok db.
Proof.
  induction 1 as [|o rest Ho _ IH]; simpl; [reflexivity|].
  rewrite Ho. exact IH.
Qed.

(** X20: a handle that [Open] returns always has a file-integrity checker,
    provided the default option sets one where none is set; and [Open]
    returns a handle only for a directory that reports to exist. *)
Theorem Open_handle_has_checker
    (ChecksumIntegrityChecker : deebee.Option) (d : option deebee.Dir)
    (options : list (option deebee.Option)) (db : deebee.DB) :
  (forall db0, deebee.fileIntegrityChecker db0 = None ->
               snd (ChecksumIntegrityChecker db0) = None ->
               is_Some (deebee.fileIntegrityChecker (fst (ChecksumIntegrityChecker db0)))) ->
  deebee.Open ChecksumIntegrityChecker d options = Ok db ->
  is_Some (deebee.fileIntegrityChecker db)
  /\ exists dd, d = Some dd /\ deebee.Exists dd = Ok true.
Proof.
  intros Hdefault. unfold deebee.Open.
  destruct d as [dd|]; [|discriminate].
  destruct (deebee.Exists dd) as [[|]|err] eqn:Hex; simpl; try discriminate.
  destruct (deebee.applyOptions options _) as [db1|err]; [|discriminate].
  unfold deebee.useDefaultFileIntegrityCheckerIfNotSet.
  destruct (deebee.fileIntegrityChecker db1) as [c|] eqn:Hc.
  - intros [= <-]. split; [rewrite Hc; eauto | exists dd; split; [reflexivity | exact Hex]].
  - specialize (Hdefault db1 Hc).
    destruct (ChecksumIntegrityChecker db1) as [db2 [err|]]; [discriminate|].
    intros [= <-]. split; [apply Hdefault; reflexivity | exists dd; split; [reflexivity | exact Hex]].
Qed.

Lemma Open_handle_has_checker_witness :
  is_Some (deebee.fileIntegrityChecker
             {| deebee.dir := example.existingDir;
                deebee.fileIntegrityChecker := Some example.checker |}).
Proof.
  destruct (Open_handle_has_checker example.defaultOption (Some example.existingDir)
              [None]
              {| deebee.dir := example.existingDir;
                 deebee.fileIntegrityChecker := Some example.checker |})
    as [Hc _].
  - intros db0 Hnone _. unfold example.defaultOption, deebee.IntegrityChecker,
      deebee.setFileIntegrityChecker. rewrite Hnone. simpl. eauto.
  - reflexivity.
  - exact Hc.
Defined.

(** X21: for a [nil] directory, a directory whose existence cannot be
    told, or a directory that does not exist, [Open] fails before any
    option is applied: the options and the default make no difference to
    the error. *)
Theorem Open_checks_directory_first
    (d : option deebee.Dir)
    (default default' : deebee.Option) (options options' : list (option deebee.Option)) :
  (forall dd, d = Some dd -> deebee.Exists dd <> Ok true) ->
  deebee.Open default d options = deebee.Open default' d options'
  /\ (d = None -> deebee.Open default d options = Err deebee.ErrNilDir)
  /\ (forall dd e, d = Some dd -> deebee.Exists dd = Err e ->
        deebee.Open default d options = Err e)
  /\ (forall dd, d = Some dd -> deebee.Exists dd = Ok false ->
        exists msg, deebee.Open default d options = Err (deebee.ErrClient msg)).
Proof.
  intros Hbad. unfold deebee.Open. destruct d as [dd|].
  - specialize (Hbad dd eq_refl).
    destruct (deebee.Exists dd) as [[|]|err] eqn:Hex; simpl.
    + contradiction.
    + split; [reflexivity|]. split; [discriminate|]. split.
      * intros dd' e [= <-] He. rewrite Hex in He. discriminate.
      * intros dd' [= <-] _. eauto.
    + split; [reflexivity|]. split; [discriminate|]. split.
      * intros dd' e [= <-] He. rewrite Hex in He. injection He as <-. reflexivity.
      * intros dd' [= <-] He. rewrite Hex in He. discriminate.
  - split; [reflexivity|]. split; [reflexivity|]. split; intros; discriminate.
Qed.

Lemma Open_checks_directory_first_witness :
  deebee.Open example.defaultOption None [Some example.defaultOption]
  = Err deebee.ErrNilDir.
Proof.
  destruct (Open_checks_directory_first None example.defaultOption
              example.defaultOption [Some example.defaultOption] [])
    as (_ & Hnil & _).
  - discriminate.
  - apply Hnil. reflexivity.
Defined.

(** X22: on a directory that exists, a checker set by one option among
    [nil] options is the checker of the handle, and the default is not
    asked; with [nil] options only, the handle is what the default option
    makes of the bare handle, and an error of the default comes back as it
    is, not wrapped as the error of an option would be. *)
Theorem Open_uses_checker_or_default
    (dd : deebee.Dir) (pre post : list (option deebee.Option))
    (c : deebee.FileIntegrityChecker) (default : deebee.Option) :
  deebee.Exists dd = Ok true ->
  Forall (fun o => o = None) pre ->
  Forall (fun o => o = None) post ->
  deebee.Open default (Some dd)
    (pre ++ Some (deebee.IntegrityChecker (Some c)) :: post)
  = Ok {| deebee.dir := dd; deebee.fileIntegrityChecker := Some c |}
  /\ deebee.Open default (Some dd) pre
     = match default {| deebee.dir := dd; deebee.fileIntegrityChecker := None |} with
       | (_, Some err) => Err err
       | (db, None) => Ok db
       end
  /\ (forall e, snd (default {| deebee.dir := dd; deebee.fileIntegrityChecker := None |})
                = Some e ->
        deebee.Open default (Some dd) pre = Err e
        /\ deebee.Open default (Some dd) (pre ++ [Some default])
           = Err (deebee.ErrApplyingOptionFailed e)).
Proof.
  intros Hex Hpre Hpost. unfold deebee.Open. rewrite Hex. simpl.
  rewrite !deebee_applyOptions_app, (deebee_applyOptions_nil pre _ Hpre).
  split; [|split].
  - simpl. rewrite (deebee_applyOptions_nil post _ Hpost). reflexivity.
  - reflexivity.
  - intros e He. simpl.
    unfold deebee.useDefaultFileIntegrityCheckerIfNotSet. simpl.
    destruct (default _) as [db1 [err|]]; simpl in He; [|discriminate].
    injection He as ->. split; reflexivity.
Qed.

Lemma Open_uses_checker_or_default_witness :
  deebee.Open (fun db => (db, Some (deebee.ErrOther "no default")))
    (Some example.existingDir)
    [None; Some (deebee.IntegrityChecker (Some example.checker)); None]
  = Ok {| deebee.dir := example.existingDir;
          deebee.fileIntegrityChecker := Some example.checker |}.
Proof.
  apply (Open_uses_checker_or_default example.existingDir [None] [None]
           example.checker (fun db => (db, Some (deebee.ErrOther "no default")))).
  - reflexivity.
  - repeat constructor.
  - repeat constructor.
Defined.

(** ** Package checksum: the FNV family and the registry *)

(** The digests of "data" that the test table of the package expects. *)
Lemma family_test_table :
  map (fun a : checksum.algorithm * nat =>
         hex (checksum.Marshal
                (checksum.hashSum_Write (checksum.NewSum (fst a))
                   (bytes_of_string "data"))))
      (checksum.crcFamily ++ checksum.fnvFamily)
  = ["adf3f363"; "3408641350000000";
     "74cb23bd"; "d872e2a5"; "14dfb87eecce7a1d"; "855b556730a34a05";
     "66ab729108757277b806e89c746322b5"; "695b598c64757277b806e9704d5d6a5d"].
Proof. evaluated. Qed.

Lemma lxor_twice (a m : Z) : Z.lxor (Z.lxor a m) m = a.
Proof. rewrite Z.lxor_assoc, Z.lxor_nilpotent. apply Z.lxor_0_r. Qed.

Lemma crc_update_app (ones : Z) (tab : list Z) (crc : Z) (x y : bytes) :
  checksum.crc_update ones tab (checksum.crc_update ones tab crc x) y
  = checksum.crc_update ones tab crc (x ++ y).
Proof.
  unfold checksum.crc_update. rewrite lxor_twice, fold_left_app. reflexivity.
Qed.

(** X23: for each CRC and FNV algorithm of the package and all bytes, two
    writes into a fresh sum marshal to what one write of the concatenation
    marshals to, and the digest has the size of the algorithm: 4, 8 or 16
    bytes. *)
Theorem sums_are_incremental
    (a : checksum.algorithm) (size : nat) (x y : bytes) :
  (a, size) ∈ checksum.crcFamily ++ checksum.fnvFamily ->
  checksum.Marshal
    (checksum.hashSum_Write (checksum.hashSum_Write (checksum.NewSum a) x) y)
  = checksum.Marshal (checksum.hashSum_Write (checksum.NewSum a) (x ++ y))
  /\ length (checksum.Marshal (checksum.hashSum_Write (checksum.NewSum a) x)) = size.
Proof.
  intros Hin. unfold checksum.crcFamily, checksum.fnvFamily in Hin.
  simpl app in Hin.
  repeat (apply elem_of_cons in Hin as [[= -> ->]|Hin]);
    try (inversion Hin; fail);
    (split;
     [ unfold checksum.Marshal, checksum.hashSum_Write; simpl;
       unfold checksum.sum128a_Write;
       first [rewrite crc_update_app | rewrite fold_left_app]; reflexivity
     | reflexivity ]).
Qed.

Lemma sums_are_incremental_witness :
  checksum.Marshal
    (checksum.hashSum_Write
       (checksum.hashSum_Write (checksum.NewSum checksum.CRC32) (bytes_of_string "da"))
       (bytes_of_string "ta"))
  = checksum.Marshal
      (checksum.hashSum_Write (checksum.NewSum checksum.CRC32) (bytes_of_string "data")).
Proof.
  destruct (sums_are_incremental checksum.CRC32 4
              (bytes_of_string "da") (bytes_of_string "ta")) as [H _].
  - unfold checksum.crcFamily. left.
  - exact H.
Defined.

Lemma padded_inj (b b' : bytes) (k k' : nat) :
  x00 ∉ b -> x00 ∉ b' ->
  b ++ replicate k x00 = b' ++ replicate k' x00 -> b = b'.
Proof.
  revert b' k k'. induction b as [|x b IH]; intros [|y b'] k k' Hb Hb' Heq.
  - reflexivity.
  - exfalso. simpl in Heq. destruct k as [|k]; [discriminate|].
    simpl in Heq. injection Heq as <- _. apply Hb'. left.
  - exfalso. simpl in Heq. destruct k' as [|k']; [discriminate|].
    simpl in Heq. injection Heq as -> _. apply Hb. left.
  - simpl in Heq. injection Heq as -> Heq. f_equal.
    apply (IH b' k k'); [| |exact Heq].
    + intros Hin. apply Hb. right. exact Hin.
    + intros Hin. apply Hb'. right. exact Hin.
Qed.

Lemma algorithmName_fits (N : nat) (s : string) :
  (length (bytes_of_string s) <= N)%nat ->
  checksum.algorithmName N s
  = bytes_of_string s ++ replicate (N - length (bytes_of_string s)) x00.
Proof.
  intros Hlen. unfold checksum.algorithmName. cbv zeta.
  rewrite take_ge by exact Hlen. reflexivity.
Qed.

(** X24: [algorithmName] always fills the whole array: [N] bytes.  A string
    that fits is followed by zero bytes, a longer one is cut to its first
    [N] bytes; and two strings that fit and hold no zero byte have the same
    name only when they are the same string. *)
Theorem algorithmName_pads_and_cuts (N : nat) (s s' : string) :
  length (checksum.algorithmName N s) = N
  /\ ((length (bytes_of_string s) <= N)%nat ->
      checksum.algorithmName N s
      = bytes_of_string s ++ replicate (N - length (bytes_of_string s)) x00)
  /\ ((N <= length (bytes_of_string s))%nat ->
      checksum.algorithmName N s = take N (bytes_of_string s))
  /\ ((length (bytes_of_string s) <= N)%nat ->
      (length (bytes_of_string s') <= N)%nat ->
      x00 ∉ bytes_of_string s -> x00 ∉ bytes_of_string s' ->
      checksum.algorithmName N s = checksum.algorithmName N s' -> s = s').
Proof.
  split; [|split; [|split]].
  - unfold checksum.algorithmName. cbv zeta.
    rewrite length_app, length_replicate, length_take. lia.
  - apply algorithmName_fits.
  - intros Hlen. unfold checksum.algorithmName. cbv zeta.
    rewrite length_take, Nat.min_l by exact Hlen.
    rewrite Nat.sub_diag. apply app_nil_r.
  - intros Hs Hs' Hz Hz' Heq.
    rewrite !algorithmName_fits in Heq by assumption.
    apply padded_inj in Heq; [|assumption|assumption].
    unfold bytes_of_string in Heq.
    rewrite <- (string_of_list_byte_of_string s),
            <- (string_of_list_byte_of_string s'), Heq.
    reflexivity.
Qed.

Lemma builtinName_fits (a : checksum.builtin) :
  (length (bytes_of_string (checksum.builtinName a)) <= 7)%nat
  /\ x00 ∉ bytes_of_string (checksum.builtinName a).
Proof.
  destruct a; (split; [simpl; lia|]);
    intros Hin; vm_compute in Hin;
    repeat (apply elem_of_cons in Hin as [Hin|Hin]; [discriminate|]);
    inversion Hin.
Qed.

Lemma builtinName_inj (a b : checksum.builtin) :
  bytes_of_string (checksum.builtinName a) = bytes_of_string (checksum.builtinName b) ->
  a = b.
Proof. destruct a, b; intros H; try reflexivity; vm_compute in H; discriminate. Qed.

Lemma Name_inj (N : nat) (a b : checksum.builtin) :
  (7 <= N)%nat -> checksum.Name N a = checksum.Name N b -> a = b.
Proof.
  intros HN Heq. unfold checksum.Name in Heq.
  destruct (builtinName_fits a) as [Ha Hza], (builtinName_fits b) as [Hb Hzb].
  rewrite !algorithmName_fits in Heq by lia.
  apply padded_inj in Heq; [|assumption|assumption].
  apply builtinName_inj. exact Heq.
Qed.

(** A map filled entry by entry from keys that differ holds every entry. *)
Lemma foldl_insert_lookup {V} (key : V -> bytes) (l : list V) :
  (forall x y, x ∈ l -> y ∈ l -> key x = key y -> x = y) ->
  forall (m : gmap bytes V) (a : V),
    a ∈ l -> foldl (fun m a => <[key a := a]> m) m l !! key a = Some a.
Proof.
  induction l as [|x l IH] using rev_ind; intros Hinj m a Hin; [inversion Hin|].
  rewrite foldl_app. simpl.
  destruct (decide (key x = key a)) as [Heq|Hne].
  - assert (x = a) as ->.
    { apply Hinj; [apply elem_of_app; right; left | exact Hin | exact Heq]. }
    apply lookup_insert_eq.
  - rewrite lookup_insert_ne by exact Hne.
    apply IH.
    + intros u v Hu Hv. apply Hinj; apply elem_of_app; left; assumption.
    + apply elem_of_app in Hin as [Hin|Hin]; [exact Hin|].
      apply list_elem_of_singleton in Hin. subst a. contradiction.
Qed.

(** X25: when [AlgorithmName] holds at least seven bytes, the ten built-in
    algorithms have ten different names, and [algorithmsByName] resolves
    the name of each to the algorithm itself. *)
Theorem registry_resolves_every_name (N : nat) (a b : checksum.builtin) :
  (7 <= N)%nat ->
  checksum.algorithmsByName N !! checksum.Name N a = Some a
  /\ (checksum.Name N a = checksum.Name N b -> a = b).
Proof.
  intros HN. split.
  - unfold checksum.algorithmsByName.
    apply (foldl_insert_lookup (checksum.Name N)).
    + intros x y _ _. apply Name_inj. exact HN.
    + unfold checksum.registered. destruct a;
        repeat first [left; fail | right].
  - apply Name_inj. exact HN.
Qed.

Lemma registry_resolves_every_name_witness :
  checksum.algorithmsByName 8 !! checksum.Name 8 checksum.varFNV128
  = Some checksum.varFNV128.
Proof.
  apply (registry_resolves_every_name 8 checksum.varFNV128 checksum.varFNV128a).
  lia.
Defined.

(** With six bytes the names of [FNV128] and [FNV128a] are the same, and
    the registry keeps the later of the two. *)
Lemma registry_collides_on_six_bytes :
  checksum.Name 6 checksum.varFNV128 = checksum.Name 6 checksum.varFNV128a
  /\ checksum.algorithmsByName 6 !! checksum.Name 6 checksum.varFNV128
     = Some checksum.varFNV128a.
Proof. split; evaluated. Qed.
